(** * gonfig: the configuration registry, its tree primitives, the typed
      getters, the schema validator and the path cache

    A shallow embedding of [registry.go], [schema.go] and [path.go].

    Go maps are reference values: [setValue] and [Validate] update the map
    they are handed, and the caller sees the update through its own
    reference.  Maps therefore live in a store ([Heap]) and a value of Go
    type [map[string]interface{}] is a reference into it ([mapref]), the nil
    map included.  Functions that only read take the store as an argument;
    functions that write return the store they reach, inside an [outcome]
    that also tells a normal return from a panic.  [Register] and [Refresh]
    call loaders, which may not come back: their result is an [ending].

    The development is about sequences of calls: every operation below is
    one critical section.  The registry's mutex shows in one place, the call
    of a loader under the lock of [Register] and [Refresh]. *)

From Stdlib Require Import SpecFloat Ascii.
From stdpp Require Import gmap strings list fin_maps pretty.

Set Warnings "-register-all,-clear-no-such-hyp".

Local Open Scope Z_scope.
Local Open Scope string_scope.

(** ** Library functions of [strings] used by the code *)

(** [strings.Split(s, sep)] for a separator of one byte (the code splits on
    [.] and on [,] only).  The result is never empty:
    splitting the empty string gives one empty segment. *)
Fixpoint Split (s : string) (sep : Ascii.ascii) : list string :=
  match s with
  | EmptyString => [EmptyString]
  | String c s' =>
      if Ascii.eqb c sep then EmptyString :: Split s' sep
      else match Split s' sep with
           | [] => [String c EmptyString]
           | w :: ws => String c w :: ws
           end
  end.

Definition dot : Ascii.ascii := "."%char.
Definition comma : Ascii.ascii := ","%char.

(** [strings.Join(elems, sep)]. *)
Fixpoint Join (elems : list string) (sep : string) : string :=
  match elems with
  | [] => EmptyString
  | [e] => e
  | e :: rest => e +:+ sep +:+ Join rest sep
  end.

(** ** Values, maps and the store *)

Definition loc := positive.

(** A value of type [map[string]interface{}]: [None] is the nil map. *)
Abbreviation mapref := (option loc).

Definition float64 := spec_float.

(** The kinds of [reflect]. *)
Inductive Kind : Type :=
  | Invalid | Bool | Int | Int8 | Int16 | Int32 | Int64
  | Uint | Uint8 | Uint16 | Uint32 | Uint64 | Uintptr
  | Float32 | Float64 | Complex64 | Complex128
  | Array | Chan | Func | Interface | Map | Pointer | Slice | String_
  | Struct | UnsafePointer.

#[global] Instance Kind_eq_dec : EqDecision Kind.
Proof. solve_decision. Defined.

(** What an [interface{}] stored in a configuration can hold.  [VNil] is the
    nil interface; [VMap None] is an interface holding a nil map, which is a
    different thing: its dynamic type is [map[string]interface{}].  [VOther]
    stands for a value of any type that the code has no case for ([[]int],
    [int32], a struct, ...), with the name that [%T] prints for its type and
    the kind of its type. *)
Inductive Value : Type :=
  | VNil
  | VBool (b : bool)
  | VInt (i : Z)
  | VUint (u : Z)
  | VFloat (f : float64)
  | VString (s : string)
  | VStrings (l : list string)
  | VSlice (l : list Value)
  | VMap (m : mapref)
  | VOther (typ : string) (kind : Kind).

(** The entries of one map, and the store of all maps. *)
Abbreviation gomap := (gmap string Value).
Abbreviation Heap := (gmap loc gomap).

(** The entries behind a reference.  The nil map reads as empty. *)
Definition deref (h : Heap) (m : mapref) : gomap :=
  match m with
  | Some l => default ∅ (h !! l)
  | None => ∅
  end.

(** [v, ok := m[k]]: [None] stands for [ok = false]. *)
Definition map_index (h : Heap) (m : mapref) (k : string) : option Value :=
  deref h m !! k.

(** [m, ok := v.(map[string]interface{})] applied to the result of an
    index expression: [None] stands for [ok = false], which is what an absent
    key (a nil interface) and a value of another type give.  An interface
    that holds the nil map passes the assertion. *)
Definition assert_map (v : option Value) : option mapref :=
  match v with
  | Some (VMap m) => Some m
  | _ => None
  end.

(** Results of functions that only read: a value, a Go [error] with its
    message, or a panic. *)
Inductive result (A : Type) : Type :=
  | Ok (a : A)
  | Err (msg : string)
  | Panic (msg : string).
Arguments Ok {A} a.
Arguments Err {A} msg.
Arguments Panic {A} msg.

(** Outcomes of functions that write: the state reached, with the returned
    value when the call returned and the panic value when it did not. *)
Inductive outcome (S A : Type) : Type :=
  | Return (a : A) (s : S)
  | Panicked (v : string) (s : S).
Arguments Return {S A} a s.
Arguments Panicked {S A} v s.

(** A Go [error]: nil or a message. *)
Definition error := option string.

(** [make(map[string]interface{})]: a new, empty map at an unused address. *)
Definition make_map (h : Heap) : loc * Heap :=
  let l := fresh (dom h) in (l, <[l := ∅]> h).

(** [m[k] = v].  Assigning to an entry of the nil map panics. *)
Definition map_assign (h : Heap) (m : mapref) (k : string) (v : Value)
  : outcome Heap unit :=
  match m with
  | None => Panicked "assignment to entry in nil map" h
  | Some l => Return tt (<[l := <[k := v]> (deref h m)]> h)
  end.

(** ** Tree primitives ([registry.go], internal helper functions) *)

Definition key_not_found (key fullPath : string) : string :=
  "key not found: '" +:+ key +:+ "' in path '" +:+ fullPath +:+ "'".

Definition not_a_map (key fullPath : string) : string :=
  "value at '" +:+ key +:+ "' in path '" +:+ fullPath
  +:+ "' is not a map, cannot traverse further".

(** The loop of [traverse] and the final lookup.  [visited] holds the
    segments before the current one, so that [visited ++ [part]] is
    [parts[:i+1]] of the source. *)
Fixpoint traverse_from (h : Heap) (current : mapref) (visited parts : list string)
    (fullPath : string) : result Value :=
  match parts with
  | [] => Panic "slice bounds out of range"
  | part :: rest =>
      match rest with
      | [] =>
          match map_index h current part with
          | Some value => Ok value
          | None => Err (key_not_found part fullPath)
          end
      | _ :: _ =>
          match assert_map (map_index h current part) with
          | Some next => traverse_from h next (visited ++ [part]) rest fullPath
          | None =>
              let currentPath := Join (visited ++ [part]) "." in
              match map_index h current part with
              | None => Err (key_not_found currentPath fullPath)
              | Some _ => Err (not_a_map currentPath fullPath)
              end
          end
      end
  end.

Definition traverse (h : Heap) (config : mapref) (parts : list string)
    (fullPath : string) : result Value :=
  traverse_from h config [] parts fullPath.

(** [setValue]: walks like [traverse], putting a new map wherever the key is
    absent or holds something that is not a map, and assigns at the last
    segment.  It has no error return other than nil. *)
Fixpoint setValue (h : Heap) (current : mapref) (parts : list string)
    (value : Value) : outcome Heap error :=
  match parts with
  | [] => Panicked "slice bounds out of range" h
  | part :: rest =>
      match rest with
      | [] =>
          match map_assign h current part value with
          | Return _ h' => Return None h'
          | Panicked v h' => Panicked v h'
          end
      | _ :: _ =>
          match assert_map (map_index h current part) with
          | Some next => setValue h next rest value
          | None =>
              let '(l, h1) := make_map h in
              match map_assign h1 current part (VMap (Some l)) with
              | Return _ h2 => setValue h2 (Some l) rest value
              | Panicked v h2 => Panicked v h2
              end
          end
      end
  end.

(** ** The registry ([registry.go]) *)

(** The process environment, as [os.LookupEnv] reads it: a name that is
    not set has no entry. *)
Abbreviation Env := (gmap string string).

(** What a call [loader(r)] comes to.  The loader returns a map, which may
    be nil; or it panics, with the value that [recover] reports for the
    panic, [None] when that value is nil (the case of [panic(nil)] before
    Go 1.21, and since then under [panicnil=1]); or it never comes back.  In
    the first two cases [h] is the store as the loader leaves it: a loader
    makes maps, and may change the maps that it holds a reference to. *)
Inductive loading : Type :=
  | Loads (config : mapref) (h : Heap)
  | LoaderPanics (v : option string) (h : Heap)
  | LoaderBlocks.

(** A loader is a callback that is handed the registry.  Of the methods that
    the registry offers it, [Get], [Set], the typed getters, [Register],
    [Refresh], [Unmarshal] and [UnmarshalKey] take the lock, which [Register]
    and [Refresh] hold while they call the loader; the lock is not reentrant,
    so a loader that calls one of them never comes back ([LoaderBlocks], which
    also stands for a loader that does not terminate).  The four [GetEnv]
    methods take no lock and read the process environment only, which is the
    first argument here.  The second argument is the store at the call. *)
Definition ConfigLoader := Env → Heap → loading.

(** The registry: its two maps, as [GetConfigRegistry] makes them (neither
    is nil), with the store of the maps that the sections refer to. *)
Record ConfigRegistry : Type := {
  store : Heap;
  configs : gmap string mapref;
  loaders : gmap string ConfigLoader
}.

Definition with_store (h : Heap) (r : ConfigRegistry) : ConfigRegistry :=
  {| store := h; configs := configs r; loaders := loaders r |}.

(** [r.configs[name] = config] *)
Definition set_config (name : string) (config : mapref) (r : ConfigRegistry)
  : ConfigRegistry :=
  {| store := store r; configs := <[name := config]> (configs r);
     loaders := loaders r |}.

(** [r.loaders[name] = loader] *)
Definition set_loader (name : string) (loader : ConfigLoader) (r : ConfigRegistry)
  : ConfigRegistry :=
  {| store := store r; configs := configs r;
     loaders := <[name := loader]> (loaders r) |}.

(** [r.configs[name] = make(map[string]interface{})] *)
Definition set_config_empty (name : string) (r : ConfigRegistry) : ConfigRegistry :=
  let '(l, h) := make_map (store r) in
  set_config name (Some l) (with_store h r).

(** How a call of [Register] or of [Refresh], or a part of one, ends: it
    returns, with the registry as it leaves it; it is panicking, with the
    value that [recover] would report, [None] for nil; or it never ends. *)
Inductive ending (S A : Type) : Type :=
  | Returned (a : A) (s : S)
  | Panicking (v : option string) (s : S)
  | Blocked.
Arguments Returned {S A} a s.
Arguments Panicking {S A} v s.
Arguments Blocked {S A}.

(** [defer func() { if rec := recover(); rec != nil { handler } }()] placed
    before [body].  When [body] panics, the deferred function runs on the
    state that the panic left; its call of [recover] stops the panic, whatever
    the value, and the handler runs when the value is not nil.  The function
    then returns normally. *)
Definition recovering {S : Type} (body : S → ending S unit) (handler : S → S)
  : S → ending S unit :=
  fun s =>
    match body s with
    | Returned a s' => Returned a s'
    | Panicking rec s' =>
        match rec with
        | Some _ => Returned tt (handler s')
        | None => Returned tt s'
        end
    | Blocked => Blocked
    end.

(** [r.configs[name] = loader(r)]: the assignment takes place when the
    loader has returned. *)
Definition load_section (env : Env) (name : string) (loader : ConfigLoader)
  : ConfigRegistry → ending ConfigRegistry unit :=
  fun r =>
    match loader env (store r) with
    | Loads config h => Returned tt (set_config name config (with_store h r))
    | LoaderPanics v h => Panicking v (with_store h r)
    | LoaderBlocks => Blocked
    end.

(** [Register]: the loader is recorded, then called under the deferred
    recover. *)
Definition Register (env : Env) (name : string) (loader : ConfigLoader)
    (r : ConfigRegistry) : ending ConfigRegistry unit :=
  recovering (load_section env name loader) (set_config_empty name)
             (set_loader name loader r).

(** The body of the loop of [Refresh]: the function literal with its own
    deferred recover. *)
Definition refresh_one (env : Env) (name : string) (loader : ConfigLoader)
  : ConfigRegistry → ending ConfigRegistry unit :=
  recovering (load_section env name loader)
             (fun r => match configs r !! name with
                       | Some _ => r
                       | None => set_config_empty name r
                       end).

(** [for name, loader := range r.loaders { ... }] over the entries in the
    order [entries]; an iteration that does not return ends the loop. *)
Fixpoint refresh_loop (env : Env) (entries : list (string * ConfigLoader))
    (r : ConfigRegistry) : ending ConfigRegistry unit :=
  match entries with
  | [] => Returned tt r
  | (name, loader) :: rest =>
      match refresh_one env name loader r with
      | Returned _ r' => refresh_loop env rest r'
      | Panicking v r' => Panicking v r'
      | Blocked => Blocked
      end
  end.

(** Go leaves the order in which [range] visits a map open: [entries] is
    the order taken, an enumeration of [r.loaders]. *)
Definition Refresh (env : Env) (entries : list (string * ConfigLoader))
    (r : ConfigRegistry) : ending ConfigRegistry unit :=
  refresh_loop env entries r.

Definition section_not_found (name path : string) : string :=
  "config section not found: '" +:+ name +:+ "' in path '" +:+ path +:+ "'".

Definition section_is_nil (name path : string) : string :=
  "config section is nil: '" +:+ name +:+ "' in path '" +:+ path +:+ "'".

(** [lookup] of the source. *)
Definition lookup_path (r : ConfigRegistry) (path : string) : result Value :=
  match Split path dot with
  | [] => Panic "index out of range"
  | section :: rest =>
      match configs r !! section with
      | None => Err (section_not_found section path)
      | Some None => Err (section_is_nil section path)
      | Some config =>
          match rest with
          | [] => Ok (VMap config)
          | _ :: _ => traverse (store r) config rest path
          end
      end
  end.

Definition Get (r : ConfigRegistry) (path : string) : result Value :=
  match lookup_path r path with
  | Ok value => Ok value
  | Err e => Err e
  | Panic v => Panic v
  end.

(** [Set] of the source ([Set] is a reserved word here). *)
Definition Set' (r : ConfigRegistry) (path : string) (value : Value)
  : outcome ConfigRegistry error :=
  let parts := Split path dot in
  if (length parts <? 2)%nat then
    Return (Some ("invalid config path: " +:+ path)) r
  else
    match parts with
    | [] => Panicked "index out of range" r
    | section :: rest =>
        match configs r !! section with
        | None => Return (Some ("config section not found: " +:+ section)) r
        | Some config =>
            match setValue (store r) config rest value with
            | Return e h => Return e (with_store h r)
            | Panicked v h => Panicked v (with_store h r)
            end
        end
    end.

(** [Unmarshal] up to its call of [unmarshalInto]: the map that it hands
    over, or its error.  The section is looked up by the whole of [section];
    [target] tells whether [v] is a pointer that is not nil. *)
Definition Unmarshal_section (r : ConfigRegistry) (section : string) (target : bool)
  : result mapref :=
  match configs r !! section with
  | None => Err ("config section not found: '" +:+ section +:+ "'")
  | Some config =>
      if target then Ok config
      else Err "unmarshal target must be a non-nil pointer"
  end.

(** ** Paths through the store *)

(** The maps that the walk along [parts] indexes, in order: the map at hand,
    then the map found under each segment but the last, as far as the
    segments hold maps. *)
Fixpoint path_maps (h : Heap) (current : mapref) (parts : list string)
  : list mapref :=
  match parts with
  | [] => []
  | part :: rest =>
      current ::
        match rest with
        | [] => []
        | _ :: _ =>
            match assert_map (map_index h current part) with
            | Some next => path_maps h next rest
            | None => []
            end
        end
  end.

(** A reference to a map that exists: not the nil map, and an address of
    the store, as every reference of a Go program other than nil is. *)
Definition allocated (h : Heap) (m : mapref) : Prop :=
  match m with
  | Some l => l ∈ dom h
  | None => False
  end.

#[global] Instance allocated_dec h m : Decision (allocated h m).
Proof. destruct m; simpl; apply _. Defined.

(** The walk along [parts] stays in a tree: it meets no nil map and meets
    no map twice. *)
Definition tree_path (h : Heap) (current : mapref) (parts : list string) : Prop :=
  NoDup (path_maps h current parts) ∧
  Forall (allocated h) (path_maps h current parts).

#[global] Instance tree_path_dec h current parts : Decision (tree_path h current parts).
Proof. unfold tree_path. apply _. Defined.

(** ** Typed getters ([registry.go]) *)

(** The name that the verb [%T] prints for the dynamic type of a value. *)
Definition typeName (v : Value) : string :=
  match v with
  | VNil => "<nil>"
  | VBool _ => "bool"
  | VInt _ => "int"
  | VUint _ => "uint"
  | VFloat _ => "float64"
  | VString _ => "string"
  | VStrings _ => "[]string"
  | VSlice _ => "[]interface {}"
  | VMap _ => "map[string]interface {}"
  | VOther typ _ => typ
  end.

(** What a parser of [strconv] returns: the value, or an error with its
    message. *)
Inductive parsed (A : Type) : Type :=
  | Parsed (a : A)
  | ParseError (msg : string).
Arguments Parsed {A} a.
Arguments ParseError {A} msg.

(** What a call of a method [String() string] of a stored value comes to:
    the string it returns, or a panic (a method on a nil pointer, say). *)
Inductive called : Type :=
  | Gives (s : string)
  | MethodPanics (msg : string).

(** Functions of the Go library, conversions of the language and methods of
    the stored values that the code calls and that are not part of the
    repository.  The development holds for every such library. *)
Record GoLib : Type := {
  Atoi : string → parsed Z;                (* strconv.Atoi *)
  ParseBool : string → parsed bool;        (* strconv.ParseBool *)
  ParseFloat : string → parsed float64;    (* strconv.ParseFloat(s, 64) *)
  TrimSpace : string → string;             (* strings.TrimSpace *)
  float_to_int : float64 → Z;              (* int(f) *)
  int_to_float : Z → float64;              (* float64(i) *)
  Sprint : Heap → Value → string;          (* fmt.Sprintf with the verb %v *)
  String_method : Value → option called    (* v.String(), for a fmt.Stringer *)
}.

Definition cannot_convert (path target : string) (value : Value) : string :=
  "cannot convert value at path '" +:+ path +:+ "' to " +:+ target
  +:+ ": found type " +:+ typeName value.

Definition cannot_convert_value (v path target err : string) : string :=
  "cannot convert value '" +:+ v +:+ "' at path '" +:+ path +:+ "' to "
  +:+ target +:+ ": " +:+ err.

Definition cannot_convert_item (i : nat) (path : string) (item : Value) : string :=
  "cannot convert item at index " +:+ pretty i +:+ " in path '" +:+ path
  +:+ "' to string: found type " +:+ typeName item.

(** Each typed getter opens with [value, err := r.Get(path)] and the branch
    [if err != nil], where [defaultValue] is its variadic argument, and goes
    on with its own conversion of [value]. *)
Definition GetString (r : ConfigRegistry) (path : string)
    (defaultValue : list string) : result string :=
  match Get r path with
  | Err err =>
      match defaultValue with
      | d :: _ => Ok d
      | [] => Err err
      end
  | Panic v => Panic v
  | Ok value =>
      match value with
      | VString str => Ok str
      | _ => Err ("value at " +:+ path +:+ " is not a string")
      end
  end.

(** The loop of [GetStringArray] over a [[]interface{}], from index [i]. *)
Fixpoint string_items (path : string) (i : nat) (items : list Value)
  : result (list string) :=
  match items with
  | [] => Ok []
  | item :: rest =>
      match item with
      | VString str =>
          match string_items path (S i) rest with
          | Ok result => Ok (str :: result)
          | Err e => Err e
          | Panic v => Panic v
          end
      | _ => Err (cannot_convert_item i path item)
      end
  end.

Section TypedGetters.
Variable go : GoLib.

Definition GetInt (r : ConfigRegistry) (path : string) (defaultValue : list Z)
  : result Z :=
  match Get r path with
  | Err err =>
      match defaultValue with
      | d :: _ => Ok d
      | [] => Err err
      end
  | Panic v => Panic v
  | Ok value =>
      match value with
      | VInt v => Ok v
      | VFloat v => Ok (float_to_int go v)
      | VString v =>
          match Atoi go v with
          | Parsed i => Ok i
          | ParseError err => Err (cannot_convert_value v path "int" err)
          end
      | _ => Err (cannot_convert path "int" value)
      end
  end.

Definition GetBool (r : ConfigRegistry) (path : string) (defaultValue : list bool)
  : result bool :=
  match Get r path with
  | Err err =>
      match defaultValue with
      | d :: _ => Ok d
      | [] => Err err
      end
  | Panic v => Panic v
  | Ok value =>
      match value with
      | VBool v => Ok v
      | VString v =>
          match ParseBool go v with
          | Parsed b => Ok b
          | ParseError err => Err (cannot_convert_value v path "bool" err)
          end
      | _ => Err (cannot_convert path "bool" value)
      end
  end.

Definition GetFloat (r : ConfigRegistry) (path : string)
    (defaultValue : list float64) : result float64 :=
  match Get r path with
  | Err err =>
      match defaultValue with
      | d :: _ => Ok d
      | [] => Err err
      end
  | Panic v => Panic v
  | Ok value =>
      match value with
      | VFloat v => Ok v
      | VInt v => Ok (int_to_float go v)
      | VString v =>
          match ParseFloat go v with
          | Parsed f => Ok f
          | ParseError err => Err (cannot_convert_value v path "float64" err)
          end
      | _ => Err (cannot_convert path "float64" value)
      end
  end.

(** The type switch of [GetStringArray]. *)
Definition string_array_of (path : string) (value : Value) : result (list string) :=
  match value with
  | VStrings v => Ok v
  | VString v =>
      if decide (v = EmptyString) then Ok []
      else Ok (TrimSpace go <$> Split v comma)
  | VSlice v => string_items path 0 v
  | _ => Err (cannot_convert path "string array" value)
  end.

Definition GetStringArray (r : ConfigRegistry) (path : string)
    (defaultValue : list (list string)) : result (list string) :=
  match Get r path with
  | Err err =>
      match defaultValue with
      | d :: _ => Ok d
      | [] => Err err
      end
  | Panic v => Panic v
  | Ok value => string_array_of path value
  end.

(** ** Conversions of [Unmarshal] ([registry.go]) *)

(** [toString]: the type switch with the cases [string], [fmt.Stringer] and
    [default].  The types of the constructors of [Value] other than [VOther]
    have no methods, so that only a [VOther] can be a [fmt.Stringer]; it is
    one when [String_method] has an answer for it, and the case calls the
    method.  The error is always nil. *)
Definition toString (h : Heap) (value : Value) : result string :=
  match value with
  | VString v => Ok v
  | VOther _ _ =>
      match String_method go value with
      | Some (Gives s) => Ok s
      | Some (MethodPanics msg) => Panic msg
      | None => Ok (Sprint go h value)
      end
  | v => Ok (Sprint go h v)
  end.

(** The loop of [toStringSlice] over a [[]interface{}], from index [i]. *)
Fixpoint toString_items (h : Heap) (i : nat) (items : list Value)
  : result (list string) :=
  match items with
  | [] => Ok []
  | item :: rest =>
      match toString h item with
      | Ok str =>
          match toString_items h (S i) rest with
          | Ok result => Ok (str :: result)
          | Err e => Err e
          | Panic v => Panic v
          end
      | Err err => Err ("cannot convert item at index " +:+ pretty i +:+ ": " +:+ err)
      | Panic v => Panic v
      end
  end.

Definition toStringSlice (h : Heap) (value : Value) : result (list string) :=
  match value with
  | VStrings v => Ok v
  | VString v =>
      if decide (v = EmptyString) then Ok []
      else Ok (Split v comma)
  | VSlice v => toString_items h 0 v
  | _ => Err ("cannot convert " +:+ typeName value +:+ " to []string")
  end.
End TypedGetters.

(** The string of an item that [toString] converts: a string is kept, a
    value with a [String] method gives what the method returns, and any other
    value is printed. *)
Definition toString_or_format (go : GoLib) (h : Heap) (item : Value) : string :=
  match item with
  | VString s => s
  | VOther _ _ =>
      match String_method go item with
      | Some (Gives s) => s
      | _ => Sprint go h item
      end
  | _ => Sprint go h item
  end.

(** The [String] method of the item panics. *)
Definition String_panics (go : GoLib) (item : Value) (msg : string) : Prop :=
  (∃ typ kind, item = VOther typ kind) ∧
  String_method go item = Some (MethodPanics msg).

Definition not_assignable (typ : string) : string :=
  "reflect.Set: value of type []string is not assignable to type " +:+ typ.

(** The case [reflect.Slice] of [setField], for a field whose elements have
    kind [elem]: the slice that [field.Set] stores, or the error, or the
    panic.  [canSet] is [field.CanSet()]; [typ] is the printed type of the
    field; [assignable] tells whether a [[]string] is assignable to the type
    of the field, which [field.Set] asks for: it is for [[]string] and for a
    named type whose underlying type that is, and it is not when the element
    type is another type of kind string, as in [[]Role] with
    [type Role string]. *)
Definition setField_Slice (go : GoLib) (h : Heap) (canSet : bool) (elem : Kind)
    (assignable : bool) (typ : string) (value : Value) : result (list string) :=
  if negb canSet then Err "field cannot be set"
  else if decide (elem = String_) then
    match toStringSlice go h value with
    | Ok s => if assignable then Ok s else Panic (not_assignable typ)
    | Err err => Err err
    | Panic v => Panic v
    end
  else Err ("unsupported slice type: " +:+ typ).

(** ** The schema validator ([schema.go]) *)

(** [reflect.TypeOf(value).Kind()] for a value that is not the nil
    interface. *)
Definition kind_of (value : Value) : Kind :=
  match value with
  | VNil => Invalid
  | VBool _ => Bool
  | VInt _ => Int
  | VUint _ => Uint
  | VFloat _ => Float64
  | VString _ => String_
  | VStrings _ | VSlice _ => Slice
  | VMap _ => Map
  | VOther _ kind => kind
  end.

(** [Kind.String()] *)
Definition kindName (k : Kind) : string :=
  match k with
  | Invalid => "invalid" | Bool => "bool" | Int => "int" | Int8 => "int8"
  | Int16 => "int16" | Int32 => "int32" | Int64 => "int64" | Uint => "uint"
  | Uint8 => "uint8" | Uint16 => "uint16" | Uint32 => "uint32"
  | Uint64 => "uint64" | Uintptr => "uintptr" | Float32 => "float32"
  | Float64 => "float64" | Complex64 => "complex64"
  | Complex128 => "complex128" | Array => "array" | Chan => "chan"
  | Func => "func" | Interface => "interface" | Map => "map"
  | Pointer => "ptr" | Slice => "slice" | String_ => "string"
  | Struct => "struct" | UnsafePointer => "unsafe.Pointer"
  end.

(** [value == nil] for an [interface{}] *)
Definition is_nil (value : Value) : bool :=
  match value with
  | VNil => true
  | _ => false
  end.

(** A validator reads the value (and through it the store) and returns an
    error or nil. *)
Record ConfigSchemaField : Type := {
  Type_ : Kind;
  Required : bool;
  Default : Value;
  Validator : option (Heap → Value → error)
}.

Record ConfigSchema : Type := {
  Fields : gmap string ConfigSchemaField
}.

Definition NewConfigSchema : ConfigSchema := {| Fields := ∅ |}.

Definition AddField (path : string) (field : ConfigSchemaField) (s : ConfigSchema)
  : ConfigSchema :=
  {| Fields := <[path := field]> (Fields s) |}.

Definition validateValue (h : Heap) (value : Value) (field : ConfigSchemaField)
  : error :=
  if is_nil value then
    if Required field then Some "required field is nil" else None
  else
    let valueType := kind_of value in
    if decide (valueType ≠ Type_ field) then
      Some ("expected type " +:+ kindName (Type_ field) +:+ ", got "
            +:+ kindName valueType)
    else
      match Validator field with
      | Some validator =>
          match validator h value with
          | Some err => Some err
          | None => None
          end
      | None => None
      end.

(** [Validate]: the loop [for path, field := range s.Fields] on the caller's
    map [config].  Go leaves the order of [range] over a map open: [entries]
    is the order taken, an enumeration of [s.Fields]. *)
Fixpoint Validate (entries : list (string * ConfigSchemaField)) (h : Heap)
    (config : mapref) : outcome Heap error :=
  match entries with
  | [] => Return None h
  | (path, field) :: rest =>
      let parts := Split path dot in
      match traverse h config parts path with
      | Panic v => Panicked v h
      | Err _ =>
          if Required field then
            Return (Some ("required field missing: " +:+ path)) h
          else if negb (is_nil (Default field)) then
            match setValue h config parts (Default field) with
            | Return (Some err) h' =>
                Return (Some ("failed to set default value for " +:+ path
                              +:+ ": " +:+ err)) h'
            | Return None h' => Validate rest h' config
            | Panicked v h' => Panicked v h'
            end
          else Validate rest h config
      | Ok value =>
          match validateValue h value field with
          | Some err =>
              Return (Some ("validation failed for " +:+ path +:+ ": " +:+ err)) h
          | None => Validate rest h config
          end
      end
  end.

(** ** The path cache ([path.go]) *)

Module PathCache.

(** A value of type [[]string]: the address of its backing array and its
    length.  Two slices are the same sequence in memory when these agree. *)
Record slice : Type := { array : loc; len : nat }.

(** The backing arrays in memory, and the entries of [pc.cache]. *)
Record state : Type := {
  arrays : gmap loc (list string);
  cache : gmap string slice
}.

Definition NewPathCache (mem : gmap loc (list string)) : state :=
  {| arrays := mem; cache := ∅ |}.

(** The elements that a slice holds. *)
Definition elements (st : state) (s : slice) : list string :=
  take (len s) (default [] (arrays st !! array s)).

(** [Get]: the cached slice when [Load] finds one; else [strings.Split]
    builds a new array, and the slice is stored and returned. *)
Definition Get (path : string) (st : state) : slice * state :=
  match cache st !! path with
  | Some cached => (cached, st)
  | None =>
      let parts := Split path dot in
      let a := fresh (dom (arrays st)) in
      let s := {| array := a; len := length parts |} in
      (s, {| arrays := <[a := parts]> (arrays st);
             cache := <[path := s]> (cache st) |})
  end.

(** The cache after a run of calls. *)
Definition after_calls (paths : list string) (st : state) : state :=
  foldl (fun st q => (Get q st).2) st paths.

End PathCache.

(** Every cached slice is the split of its path, in an array of the
    memory. *)
Definition cache_inv (st : PathCache.state) : Prop :=
  ∀ p s, PathCache.cache st !! p = Some s →
         PathCache.arrays st !! PathCache.array s = Some (Split p dot) ∧
         PathCache.len s = length (Split p dot).

(** ** The process-wide registry ([GetConfigRegistry]) *)

(** The package variables: the registry (nil until it is made) and whether
    [globalConfigRegistryOnce] has run its function. *)
Record Globals : Type := {
  globalConfigRegistry : option ConfigRegistry;
  globalConfigRegistryOnce : bool
}.

Definition initial_globals : Globals :=
  {| globalConfigRegistry := None; globalConfigRegistryOnce := false |}.

(** The function handed to [Once.Do]: the error it leaves in [initErr] and
    the registry it assigns, if any.  [load] is what [godotenv.Load] answers
    for a file name at the time of the call. *)
Definition init_registry (load : string → error) (env : string)
  : error * option ConfigRegistry :=
  if decide (env = EmptyString) then
    (Some "env is required when initializing config registry", None)
  else if decide (env = "development" ∨ env = "staging" ∨ env = "production") then
    match load ".env" with
    | Some err => (Some ("error loading .env file: " +:+ err), None)
    | None => (None, Some {| store := ∅; configs := ∅; loaders := ∅ |})
    end
  else if decide (env = "testing") then
    match load ".env.testing" with
    | Some err => (Some ("error loading .env.testing file: " +:+ err), None)
    | None => (None, Some {| store := ∅; configs := ∅; loaders := ∅ |})
    end
  else (Some ("invalid env: " +:+ env), None).

(** [GetConfigRegistry]: the returned pair and the package variables after
    the call. *)
Definition GetConfigRegistry (load : string → error) (env : string) (g : Globals)
  : (option ConfigRegistry * error) * Globals :=
  let '(initErr, g') :=
    if globalConfigRegistryOnce g then (None, g)
    else
      let '(initErr, made) := init_registry load env in
      (initErr,
       {| globalConfigRegistry :=
            match made with
            | Some r => Some r
            | None => globalConfigRegistry g
            end;
          globalConfigRegistryOnce := true |})
  in
  match initErr with
  | Some err => ((None, Some err), g')
  | None => ((globalConfigRegistry g', None), g')
  end.

(** The package variables once the function of [Once.Do] has run without
    making the registry. *)
Definition failed_globals : Globals :=
  {| globalConfigRegistry := None; globalConfigRegistryOnce := true |}.

(** A run of calls, each with its own answer of the loader and its own
    [env]: the pairs returned, in order. *)
Fixpoint calls (args : list ((string → error) * string)) (g : Globals)
  : list (option ConfigRegistry * error) :=
  match args with
  | [] => []
  | (load, env) :: rest =>
      let '(res, g') := GetConfigRegistry load env g in
      res :: calls rest g'
  end.

(** The map reached from [current] when every segment of [segs] holds a
    map; [None] when one of them does not. *)
Fixpoint descend (h : Heap) (current : mapref) (segs : list string)
  : option mapref :=
  match segs with
  | [] => Some current
  | seg :: rest =>
      match assert_map (map_index h current seg) with
      | Some next => descend h next rest
      | None => None
      end
  end.

(** ** Registries and maps of the examples *)

Definition empty_registry : ConfigRegistry :=
  {| store := ∅; configs := ∅; loaders := ∅ |}.

(** The registry that a call leaves.  A call that never ends leaves none:
    the empty registry stands for it. *)
Definition registry_after (e : ending ConfigRegistry unit) : ConfigRegistry :=
  match e with
  | Returned _ r => r
  | Panicking _ r => r
  | Blocked => empty_registry
  end.

(** A loader that returns nil, as the one of [TestRefreshErrors]. *)
Definition nil_loader : ConfigLoader := fun _ h => Loads None h.

(** A loader that panics, as the one of [TestRefreshErrors]. *)
Definition panic_loader : ConfigLoader :=
  fun _ h => LoaderPanics (Some "test panic") h.


(** A loader that asks the registry for a value, as in
    [registry.GetString("app.name")]: the call waits for the lock. *)
Definition asking_loader : ConfigLoader := fun _ _ => LoaderBlocks.

(** A loader that returns [{database: {host: localhost}, level: 3}]. *)
Definition app_loader : ConfigLoader := fun _ h =>
  let '(l1, h1) := make_map h in
  let '(l2, h2) := make_map h1 in
  let h3 := <[l2 := {[ "host" := VString "localhost" ]}]> h2 in
  let h4 := <[l1 := {[ "database" := VMap (Some l2); "level" := VInt 3 ]}]> h3 in
  Loads (Some l1) h4.


(** A loader that returns [{a: m}] where [m] is a nil map. *)
Definition nested_nil_loader : ConfigLoader := fun _ h =>
  let '(l1, h1) := make_map h in
  Loads (Some l1) (<[l1 := {[ "a" := VMap None ]}]> h1).

Definition nil_registry : ConfigRegistry :=
  registry_after (Register ∅ "test_nil" nil_loader empty_registry).

Definition app_registry : ConfigRegistry :=
  registry_after (Register ∅ "app" app_loader empty_registry).

Definition nested_nil_registry : ConfigRegistry :=
  registry_after (Register ∅ "s" nested_nil_loader empty_registry).

(** A registry whose section [s] is a map that holds itself under the
    key [a]. *)
Definition cyclic_registry : ConfigRegistry :=
  {| store := {[ 1%positive := {[ "a" := VMap (Some 1%positive) ]} ]};
     configs := {[ "s" := Some 1%positive ]};
     loaders := ∅ |}.

(** [strings.TrimSpace] on a string whose white space is ASCII: the bytes
    tab, line feed, vertical tab, form feed, carriage return and space are
    cut from both ends. *)
Definition is_space (c : Ascii.ascii) : bool :=
  let n := Ascii.nat_of_ascii c in
  ((9 <=? n) && (n <=? 13) || (n =? 32))%nat.

Fixpoint trim_left (s : string) : string :=
  match s with
  | EmptyString => EmptyString
  | String c s' => if is_space c then trim_left s' else s
  end.

Fixpoint trim_right (s : string) : string :=
  match s with
  | EmptyString => EmptyString
  | String c s' =>
      match trim_right s' with
      | EmptyString => if is_space c then EmptyString else String c EmptyString
      | t => String c t
      end
  end.

(** A library for the examples.  The statements below hold for every
    library; the examples need one to be closed, and call it only to trim
    ASCII strings, to print an integer and for the [String] method of two
    types: a duration, and a pointer that is nil, whose method panics.  Its
    parsers reject their input. *)
Definition sample_lib : GoLib :=
  {| Atoi := fun _ => ParseError "invalid syntax";
     ParseBool := fun _ => ParseError "invalid syntax";
     ParseFloat := fun _ => ParseError "invalid syntax";
     TrimSpace := fun s => trim_right (trim_left s);
     float_to_int := fun _ => 0;
     int_to_float := fun _ => S754_zero false;
     Sprint := fun _ v => match v with
                          | VInt i => pretty i
                          | VString s => s
                          | _ => typeName v
                          end;
     String_method := fun v =>
       match v with
       | VOther typ _ =>
           if decide (typ = "time.Duration") then Some (Gives "1h0m0s")
           else if decide (typ = "*main.Level") then
             Some (MethodPanics "invalid memory address or nil pointer dereference")
           else None
       | _ => None
       end |}.

(** A schema with one optional field and a default, as the field
    [test.optional_value] of [TestSchemaValidation]. *)
Definition optional_field : ConfigSchemaField :=
  {| Type_ := String_; Required := false; Default := VString "default";
     Validator := None |}.

Definition level_field : ConfigSchemaField :=
  {| Type_ := Int; Required := true; Default := VNil; Validator := None |}.

Definition string_field : ConfigSchemaField :=
  {| Type_ := String_; Required := false; Default := VNil; Validator := None |}.

(** An optional number with a default. *)
Definition ttl_field : ConfigSchemaField :=
  {| Type_ := Int; Required := false; Default := VInt 60; Validator := None |}.

(** An optional number whose default is a string. *)
Definition pool_field : ConfigSchemaField :=
  {| Type_ := Int; Required := false; Default := VString "ten";
     Validator := None |}.

(** The store with the one map [{a: x}]. *)
Definition string_tree : Heap :=
  {[ 1%positive := {[ "a" := VString "x" ]} ]}.

(** The store with the one map [{}]. *)
Definition empty_tree : Heap := {[ 1%positive := ∅ ]}.

(** A field of a schema validates on a tree: it is found and passes
    [validateValue]. *)
Definition field_validates (h : Heap) (config : mapref)
    (entry : string * ConfigSchemaField) : Prop :=
  ∃ value, traverse h config (Split entry.1 dot) entry.1 = Ok value ∧
           validateValue h value entry.2 = None.

(** ** Bytes of a path, environment variables, toBool *)

(** Whether the byte [c] occurs in [s]. *)
Fixpoint contains_byte (c : Ascii.ascii) (s : string) : bool :=
  match s with
  | EmptyString => false
  | String c' s' => Ascii.eqb c' c || contains_byte c s'
  end.

(** [GetEnvStringArray].  The receiver plays no part in it. *)
Definition GetEnvStringArray (go : GoLib) (env : Env) (key : string)
    (defaultValue : list string) : list string :=
  match env !! key with
  | Some value => TrimSpace go <$> Split value comma
  | None => defaultValue
  end.

(** [toBool] of the conversions of [Unmarshal]. *)
Definition toBool (go : GoLib) (value : Value) : result bool :=
  match value with
  | VBool v => Ok v
  | VString v =>
      match ParseBool go v with
      | Parsed b => Ok b
      | ParseError err => Err err
      end
  | VInt v => Ok (negb (v =? 0)%Z)
  | _ => Err ("cannot convert " +:+ typeName value +:+ " to bool")
  end.

(** The entries that the walk along [parts] reads: each map of the walk
    with the segment it is indexed by. *)
Fixpoint path_cells (h : Heap) (current : mapref) (parts : list string)
  : list (mapref * string) :=
  match parts with
  | [] => []
  | part :: rest =>
      (current, part) ::
        match rest with
        | [] => []
        | _ :: _ =>
            match assert_map (map_index h current part) with
            | Some next => path_cells h next rest
            | None => []
            end
        end
  end.

(** The entry of a map of the store that [setValue] assigns: the last
    segment in the last map when the segments before it hold maps, and else
    the first segment that holds no map, in the map reached. *)
Fixpoint written_cell (h : Heap) (current : mapref) (parts : list string)
  : option (mapref * string) :=
  match parts with
  | [] => None
  | part :: rest =>
      match rest with
      | [] => Some (current, part)
      | _ :: _ =>
          match assert_map (map_index h current part) with
          | Some next => written_cell h next rest
          | None => Some (current, part)
          end
      end
  end.

(** The cache holds no array twice: the slices cached for two paths are in
    different arrays. *)
Definition cache_separate (st : PathCache.state) : Prop :=
  ∀ p q s t, PathCache.cache st !! p = Some s → PathCache.cache st !! q = Some t →
             PathCache.array s = PathCache.array t → p = q.

(** ** Facts about the tree primitives *)

Lemma make_map_fresh h l h1 :
  make_map h = (l, h1) → (l ∉ dom h) ∧ h1 = (<[l := ∅]> h).
Proof.
  unfold make_map. intros [= <- <-]. split; [apply is_fresh | done].
Qed.

Lemma map_index_assign_eq (h : Heap) (l : loc) (k : string) (v : Value) (m : gomap) :
  map_index (<[l := <[k := v]> m]> h) (Some l) k = Some v.
Proof.
  unfold map_index, deref. rewrite lookup_insert_eq. simpl.
  apply lookup_insert_eq.
Qed.

Lemma map_index_frame (h h' : Heap) (l : loc) (k : string) :
  h' !! l = h !! l → map_index h' (Some l) k = map_index h (Some l) k.
Proof. unfold map_index, deref. by intros ->. Qed.

(** On a tree path [setValue] returns nil, [traverse] then finds the value
    along the same segments, and maps off the path keep their entries. *)
Lemma setValue_traverse_from parts :
  ∀ (h : Heap) (current : mapref) (visited : list string) (fullPath : string)
    (value : Value),
    parts ≠ [] →
    tree_path h current parts →
    ∃ h', setValue h current parts value = Return None h' ∧
          traverse_from h' current visited parts fullPath = Ok value ∧
          dom h ⊆ dom h' ∧
          (∀ l, l ∈ dom h → Some l ∉ path_maps h current parts →
                h' !! l = h !! l).
Proof.
  induction parts as [|part rest IH]; intros h current visited fullPath value Hne Htree;
    [done|].
  destruct Htree as [Hnd Hall].
  destruct rest as [|p2 rest'].
  - (* the last segment *)
    simpl in *. apply Forall_cons in Hall as [Hcur _].
    destruct current as [l0|]; [|done]. simpl in Hcur.
    eexists. split; [reflexivity|]. split.
    { by rewrite map_index_assign_eq. }
    split.
    { rewrite dom_insert. set_solver. }
    intros l Hl Hnot. rewrite lookup_insert_ne; [done|].
    intros ->. apply Hnot. set_solver.
  - (* an intermediate segment *)
    remember (p2 :: rest') as rest eqn:Hrest.
    assert (Hrne : rest ≠ []) by (subst; done).
    cbn [setValue traverse_from path_maps] in *.
    rewrite Hrest in Hnd, Hall |- *. rewrite <- Hrest in *.
    apply NoDup_cons in Hnd as [Hnotin Hnd].
    apply Forall_cons in Hall as [Hcur Hall].
    destruct current as [l0|]; [|done]. simpl in Hcur.
    destruct (assert_map (map_index h (Some l0) part)) as [next|] eqn:Hidx.
    + (* the key holds a map: descend *)
      destruct (IH h next (visited ++ [part])%list fullPath value Hrne (conj Hnd Hall))
        as (h' & Hset & Htr & Hdom & Hframe).
      exists h'. split; [done|]. split.
      { rewrite (map_index_frame h h'), Hidx; [done|]. by apply Hframe. }
      split; [done|].
      intros l Hl Hnot. apply Hframe; [done|]. set_solver.
    + (* the key is absent or holds no map: a new map is put there *)
      destruct (make_map h) as [l h1] eqn:Hmk.
      apply make_map_fresh in Hmk as [Hfresh ->].
      assert (Hl0 : l0 ≠ l) by (intros ->; done).
      cbn [map_assign].
      set (h2 := <[l0 := <[part := VMap (Some l)]> (deref (<[l:=∅]> h) (Some l0))]>
                   (<[l:=∅]> h)).
      assert (Hdom2 : dom h2 = {[l0]} ∪ ({[l]} ∪ dom h)).
      { unfold h2. by rewrite !dom_insert_L. }
      assert (Hpm : path_maps h2 (Some l) rest = [Some l]).
      { rewrite Hrest. cbn [path_maps]. destruct rest' as [|p3 rest'']; [done|].
        unfold map_index, deref, h2.
        rewrite lookup_insert_ne, lookup_insert_eq by done. simpl.
        by rewrite lookup_empty. }
      assert (Htree2 : tree_path h2 (Some l) rest).
      { unfold tree_path. rewrite Hpm. split; [apply NoDup_singleton|].
        apply Forall_singleton. simpl. rewrite Hdom2. set_solver. }
      destruct (IH h2 (Some l) (visited ++ [part])%list fullPath value Hrne Htree2)
        as (h' & Hset & Htr & Hdom & Hframe).
      rewrite Hpm in Hframe.
      exists h'. split; [done|]. split.
      { rewrite (map_index_frame h2 h').
        - unfold h2. by rewrite map_index_assign_eq.
        - apply Hframe; [rewrite Hdom2; set_solver|].
          rewrite list_elem_of_singleton. congruence. }
      split.
      { etrans; [|exact Hdom]. rewrite Hdom2. set_solver. }
      intros l' Hl' Hnot.
      assert (l' ≠ l) by (intros ->; done).
      assert (l' ≠ l0) by (intros ->; apply Hnot; set_solver).
      rewrite Hframe.
      * unfold h2. by rewrite !lookup_insert_ne by done.
      * rewrite Hdom2. set_solver.
      * rewrite list_elem_of_singleton. congruence.
Qed.

Lemma Split_nonempty s sep : Split s sep ≠ [].
Proof.
  destruct s as [|c s']; simpl; [done|].
  destruct (Ascii.eqb c sep); [done|]. by destruct (Split s' sep).
Qed.

(** ** Set and Get *)

(** C1, as amended: for every path of at least two segments whose first
    segment names a section of the registry, when the walk along the
    remaining segments stays in a tree (the section is not stored as the nil
    map, no nil map is met on the way and no map is met twice), [Set] returns
    nil and [Get] of the same path then returns the value that was set. *)
Theorem Set_then_Get (r : ConfigRegistry) (path : string) (value : Value)
    (section : string) (rest : list string) (config : mapref) :
  Split path dot = section :: rest →
  (2 ≤ length (Split path dot))%nat →
  configs r !! section = Some config →
  tree_path (store r) config rest →
  ∃ r', Set' r path value = Return None r' ∧ Get r' path = Ok value.
Proof.
  intros Hsplit Hlen Hsec Htree.
  assert (Hrest : rest ≠ []).
  { rewrite Hsplit in Hlen. destruct rest; simpl in Hlen; [lia|done]. }
  destruct (setValue_traverse_from rest (store r) config [] path value Hrest Htree)
    as (h' & Hset & Htr & _ & _).
  exists (with_store h' r). split.
  - unfold Set'. rewrite Hsplit. cbn zeta.
    destruct (length (section :: rest) <? 2)%nat eqn:Hlt.
    { apply Nat.ltb_lt in Hlt. rewrite Hsplit in Hlen. lia. }
    by rewrite Hsec, Hset.
  - unfold Get, lookup_path. rewrite Hsplit.
    unfold with_store. cbn [configs store]. rewrite Hsec.
    destruct config as [l|].
    + destruct rest as [|p rest']; [done|].
      unfold traverse. by rewrite Htr.
    + destruct Htree as [_ Hall]. destruct rest as [|p rest']; [done|].
      simpl in Hall. by apply Forall_cons in Hall as [? _].
Qed.

Lemma Set_then_Get_witness :
  ∃ r', Set' app_registry "app.database.port" (VInt 5432) = Return None r' ∧
        Get r' "app.database.port" = Ok (VInt 5432).
Proof.
  apply (Set_then_Get app_registry "app.database.port" (VInt 5432)
           "app" ["database"; "port"] (Some 1%positive)).
  - reflexivity.
  - vm_compute. lia.
  - reflexivity.
  - apply (bool_decide_unpack
             (tree_path (store app_registry) (Some 1%positive) ["database"; "port"])).
    vm_compute. exact I.
Defined.

(** C1 as stated fails in two ways.  For a section that is registered and
    stored as the nil map (its loader returned nil), [Set] panics on the
    assignment.  For a section that holds itself under the key [a], [Set] at
    [s.a.a] returns nil, and replaces the entry that the walk goes through,
    so that [Get] then fails. *)
Lemma Set_then_Get_failures :
  ((2 ≤ length (Split "test_nil.key" dot))%nat ∧
   head (Split "test_nil.key" dot) = Some "test_nil" ∧
   configs nil_registry !! "test_nil" = Some None ∧
   Set' nil_registry "test_nil.key" (VString "value")
     = Panicked "assignment to entry in nil map" nil_registry ∧
   ¬ ∃ e r', Set' nil_registry "test_nil.key" (VString "value") = Return e r' ∧
             Get r' "test_nil.key" = Ok (VString "value")) ∧
  ((2 ≤ length (Split "s.a.a" dot))%nat ∧
   head (Split "s.a.a" dot) = Some "s" ∧
   configs cyclic_registry !! "s" = Some (Some 1%positive) ∧
   ∃ r', Set' cyclic_registry "s.a.a" (VInt 1) = Return None r' ∧
         Get r' "s.a.a"
         = Err "value at 'a' in path 's.a.a' is not a map, cannot traverse further").
Proof.
  assert (Hset : Set' nil_registry "test_nil.key" (VString "value")
                 = Panicked "assignment to entry in nil map" nil_registry)
    by reflexivity.
  split.
  - split; [vm_compute; lia|]. split; [reflexivity|]. split; [reflexivity|].
    split; [exact Hset|].
    intros (e & r' & Hret & _). rewrite Hset in Hret. discriminate.
  - split; [vm_compute; lia|]. split; [reflexivity|]. split; [reflexivity|].
    eexists. split; reflexivity.
Qed.

(** C10 at a section that is stored as a map, not nil, whose key [a] holds a
    nil map: the type assertion of [setValue] succeeds on it, and the
    assignment into it panics. *)
Theorem Set_on_nested_nil_map :
  (2 ≤ length (Split "s.a.b" dot))%nat ∧
  configs nested_nil_registry !! "s" = Some (Some 1%positive) ∧
  map_index (store nested_nil_registry) (Some 1%positive) "a" = Some (VMap None) ∧
  Set' nested_nil_registry "s.a.b" (VInt 1)
    = Panicked "assignment to entry in nil map" nested_nil_registry.
Proof.
  split; [vm_compute; lia|]. split; [reflexivity|]. split; reflexivity.
Qed.

(** [setValue] has no error to return. *)
Lemma setValue_returns_nil parts :
  ∀ h current value e h', setValue h current parts value = Return e h' → e = None.
Proof.
  induction parts as [|part rest IH]; intros h current value e h' Hset; [done|].
  destruct rest as [|p2 rest'].
  - simpl in Hset. destruct current; simpl in Hset; by simplify_eq.
  - remember (p2 :: rest') as rest. cbn [setValue] in Hset.
    rewrite Heqrest in Hset. rewrite <- Heqrest in Hset.
    destruct (assert_map (map_index h current part)) as [next|]; [by eapply IH|].
    destruct (make_map h) as [l h1]. destruct current as [l0|]; [|done].
    simpl in Hset. by eapply IH.
Qed.

(** The errors that [Set] returns are the two of its own checks, and it
    returns them with the registry as it was. *)
Lemma Set_error_cases r path value e r' :
  Set' r path value = Return (Some e) r' →
  r' = r ∧
  (((length (Split path dot) < 2)%nat ∧ e = "invalid config path: " +:+ path) ∨
   (∃ section rest, Split path dot = section :: rest ∧
                    configs r !! section = None ∧
                    e = "config section not found: " +:+ section)).
Proof.
  unfold Set'. cbn zeta.
  destruct (length (Split path dot) <? 2)%nat eqn:Hlt.
  - intros [= <- <-]. split; [done|]. left. split; [|done]. by apply Nat.ltb_lt.
  - destruct (Split path dot) as [|section rest] eqn:Hsplit; [done|].
    destruct (configs r !! section) as [config|] eqn:Hsec.
    + destruct (setValue (store r) config rest value) as [e' h'|v h'] eqn:Hset;
        [|done].
      intros [= -> <-]. by apply setValue_returns_nil in Hset.
    + intros [= <- <-]. split; [done|]. right. by exists section, rest.
Qed.

(** ** The messages of traverse *)

Lemma traverse_from_step h current visited part rest fullPath :
  rest ≠ [] →
  traverse_from h current visited (part :: rest) fullPath =
  match assert_map (map_index h current part) with
  | Some next => traverse_from h next (visited ++ [part])%list rest fullPath
  | None =>
      match map_index h current part with
      | None => Err (key_not_found (Join (visited ++ [part])%list ".") fullPath)
      | Some _ => Err (not_a_map (Join (visited ++ [part])%list ".") fullPath)
      end
  end.
Proof. destruct rest; [done|reflexivity]. Qed.

(** Segments that hold maps are walked through, and remembered. *)
Lemma traverse_from_descend h pre :
  ∀ config visited tl fullPath cur,
    descend h config pre = Some cur →
    tl ≠ [] →
    traverse_from h config visited (pre ++ tl)%list fullPath =
    traverse_from h cur (visited ++ pre)%list tl fullPath.
Proof.
  induction pre as [|seg pre IH]; intros config visited tl fullPath cur Hd Htl.
  - simpl in Hd. injection Hd as <-. by rewrite app_nil_r.
  - simpl in Hd.
    destruct (assert_map (map_index h config seg)) as [next|] eqn:Ha; [|done].
    change ((seg :: pre) ++ tl)%list with (seg :: (pre ++ tl))%list.
    rewrite traverse_from_step, Ha.
    + rewrite (IH next (visited ++ [seg])%list tl fullPath cur Hd Htl).
      by rewrite <- app_assoc.
    + intros Hnil. apply app_eq_nil in Hnil as [_ ?]. done.
Qed.

(** C4: [traverse] on the segments [pre ++ p :: post], when the segments
    of [pre] hold maps down to [cur].  At a segment [p] that is not the last
    one, an absent key fails with the message that names the dot-join of
    the segments up to and including [p], and a key that holds something
    other than a map fails with the not-a-map message for that same join.
    At the last segment an absent key fails with the message that names the
    last segment alone. *)
Theorem traverse_failure_messages (h : Heap) (config cur : mapref)
    (pre : list string) (p : string) (post : list string) (fullPath : string) :
  descend h config pre = Some cur →
  (post ≠ [] → map_index h cur p = None →
   traverse h config (pre ++ p :: post) fullPath =
   Err ("key not found: '" +:+ Join (pre ++ [p]) "." +:+ "' in path '"
        +:+ fullPath +:+ "'")) ∧
  (post ≠ [] → ∀ v, map_index h cur p = Some v → (∀ m, v ≠ VMap m) →
   traverse h config (pre ++ p :: post) fullPath =
   Err ("value at '" +:+ Join (pre ++ [p]) "." +:+ "' in path '" +:+ fullPath
        +:+ "' is not a map, cannot traverse further")) ∧
  (map_index h cur p = None →
   traverse h config (pre ++ [p]) fullPath =
   Err ("key not found: '" +:+ p +:+ "' in path '" +:+ fullPath +:+ "'")).
Proof.
  intros Hd. unfold traverse. repeat split.
  - intros Hpost Habs.
    rewrite (traverse_from_descend h pre config [] (p :: post) fullPath cur Hd)
      by done.
    rewrite traverse_from_step by done. by rewrite Habs.
  - intros Hpost v Hv Hnm.
    rewrite (traverse_from_descend h pre config [] (p :: post) fullPath cur Hd)
      by done.
    rewrite traverse_from_step by done. rewrite Hv.
    destruct v; try done. by destruct (Hnm m).
  - intros Habs.
    rewrite (traverse_from_descend h pre config [] [p] fullPath cur Hd) by done.
    simpl. by rewrite Habs.
Qed.

Lemma traverse_failure_messages_witness :
  traverse (store app_registry) (Some 1%positive) ["database"; "port"; "x"]
           "app.database.port.x"
  = Err "key not found: 'database.port' in path 'app.database.port.x'" ∧
  traverse (store app_registry) (Some 1%positive) ["database"; "host"; "x"]
           "app.database.host.x"
  = Err "value at 'database.host' in path 'app.database.host.x' is not a map, cannot traverse further" ∧
  traverse (store app_registry) (Some 1%positive) ["database"; "port"]
           "app.database.port"
  = Err "key not found: 'port' in path 'app.database.port'".
Proof.
  split; [|split].
  - apply (traverse_failure_messages (store app_registry) (Some 1%positive)
             (Some 2%positive) ["database"] "port" ["x"] "app.database.port.x");
      [reflexivity|done|reflexivity].
  - apply (traverse_failure_messages (store app_registry) (Some 1%positive)
             (Some 2%positive) ["database"] "host" ["x"] "app.database.host.x"
             eq_refl) with (v := VString "localhost");
      [done|reflexivity|done].
  - apply (traverse_failure_messages (store app_registry) (Some 1%positive)
             (Some 2%positive) ["database"] "port" [] "app.database.port");
      reflexivity.
Defined.

(** ** Loaders that panic *)

(** The four ways of a call of a loader under a deferred recover. *)
Lemma load_or_recover env name loader handler r :
  recovering (load_section env name loader) handler r =
  match loader env (store r) with
  | Loads config h => Returned tt (set_config name config (with_store h r))
  | LoaderPanics (Some _) h => Returned tt (handler (with_store h r))
  | LoaderPanics None h => Returned tt (with_store h r)
  | LoaderBlocks => Blocked
  end.
Proof.
  unfold recovering, load_section.
  by destruct (loader env (store r)) as [config h|[v|] h|].
Qed.

Lemma recovering_no_panic {S : Type} (body : S → ending S unit) (handler : S → S)
    (s : S) v s' :
  recovering body handler s ≠ Panicking v s'.
Proof.
  unfold recovering. by destruct (body s) as [[] s1|[rec|] s1|].
Qed.

Lemma refresh_loop_no_panic env entries :
  ∀ r v r', refresh_loop env entries r ≠ Panicking v r'.
Proof.
  induction entries as [|[name loader] rest IH]; intros r v r'; simpl; [done|].
  destruct (refresh_one env name loader r) as [[] r1|rec r1|] eqn:Hone;
    [apply IH| |done].
  by apply recovering_no_panic in Hone.
Qed.

Lemma refresh_loop_app env before :
  ∀ after r r1,
    refresh_loop env before r = Returned tt r1 →
    refresh_loop env (before ++ after) r = refresh_loop env after r1.
Proof.
  induction before as [|[name loader] rest IH]; intros after r r1 Hb; simpl in *.
  - by injection Hb as ->.
  - destruct (refresh_one env name loader r) as [[] r'|v r'|]; [|done|done].
    by apply IH.
Qed.

Lemma set_config_empty_spec name r :
  ∃ l, (l ∉ dom (store r)) ∧
       set_config_empty name r
       = {| store := <[l := ∅]> (store r);
            configs := <[name := Some l]> (configs r);
            loaders := loaders r |}.
Proof.
  unfold set_config_empty. destruct (make_map (store r)) as [l h] eqn:Hmk.
  apply make_map_fresh in Hmk as [Hfresh ->]. by exists l.
Qed.




(** ** Defaults of the typed getters *)

(** The loop of [GetStringArray] stops at the first item that is not a
    string, with the error that names its index. *)
Lemma string_items_error path strs :
  ∀ i item rest,
    (∀ s, item ≠ VString s) →
    string_items path i ((VString <$> strs) ++ item :: rest)
    = Err (cannot_convert_item (i + length strs) path item).
Proof.
  induction strs as [|s strs IH]; intros i item rest Hitem.
  - simpl. rewrite Nat.add_0_r. destruct item; try done. by destruct (Hitem s).
  - rewrite fmap_cons. cbn [app string_items].
    rewrite (IH (S i) item rest Hitem). do 2 f_equal. simpl. lia.
Qed.

Ltac unfold_getters :=
  unfold GetString, GetInt, GetBool, GetFloat, GetStringArray.

(** C3: for the five typed getters.  When [Get] fails and a default is
    supplied, the default is returned with no error.  When [Get] succeeds the
    default plays no part: the getter returns what it returns without a
    default.  So the errors of the conversion are returned with a default
    supplied too: the error for a stored value of a type that the getter
    does not accept, the error for a string that does not parse, and the
    error for an item of a sequence that is not a string. *)
Theorem default_only_when_Get_fails (go : GoLib) (r : ConfigRegistry)
    (path : string) :
  (∀ e, Get r path = Err e →
     (∀ d ds, GetString r path (d :: ds) = Ok d) ∧
     (∀ d ds, GetInt go r path (d :: ds) = Ok d) ∧
     (∀ d ds, GetBool go r path (d :: ds) = Ok d) ∧
     (∀ d ds, GetFloat go r path (d :: ds) = Ok d) ∧
     (∀ d ds, GetStringArray go r path (d :: ds) = Ok d)) ∧
  (∀ v, Get r path = Ok v →
     (∀ ds, GetString r path ds = GetString r path []) ∧
     (∀ ds, GetInt go r path ds = GetInt go r path []) ∧
     (∀ ds, GetBool go r path ds = GetBool go r path []) ∧
     (∀ ds, GetFloat go r path ds = GetFloat go r path []) ∧
     (∀ ds, GetStringArray go r path ds = GetStringArray go r path [])) ∧
  (∀ v, Get r path = Ok v →
     (∀ ds, (∀ s, v ≠ VString s) →
        GetString r path ds = Err ("value at " +:+ path +:+ " is not a string")) ∧
     (∀ ds, (∀ i, v ≠ VInt i) → (∀ f, v ≠ VFloat f) → (∀ s, v ≠ VString s) →
        GetInt go r path ds = Err (cannot_convert path "int" v)) ∧
     (∀ ds, (∀ b, v ≠ VBool b) → (∀ s, v ≠ VString s) →
        GetBool go r path ds = Err (cannot_convert path "bool" v)) ∧
     (∀ ds, (∀ f, v ≠ VFloat f) → (∀ i, v ≠ VInt i) → (∀ s, v ≠ VString s) →
        GetFloat go r path ds = Err (cannot_convert path "float64" v)) ∧
     (∀ ds, (∀ l, v ≠ VStrings l) → (∀ s, v ≠ VString s) → (∀ l, v ≠ VSlice l) →
        GetStringArray go r path ds = Err (cannot_convert path "string array" v))) ∧
  (∀ s, Get r path = Ok (VString s) →
     (∀ ds err, Atoi go s = ParseError err →
        GetInt go r path ds = Err (cannot_convert_value s path "int" err)) ∧
     (∀ ds err, ParseBool go s = ParseError err →
        GetBool go r path ds = Err (cannot_convert_value s path "bool" err)) ∧
     (∀ ds err, ParseFloat go s = ParseError err →
        GetFloat go r path ds = Err (cannot_convert_value s path "float64" err))) ∧
  (∀ strs item rest,
     Get r path = Ok (VSlice ((VString <$> strs) ++ item :: rest)) →
     (∀ s, item ≠ VString s) →
     ∀ ds, GetStringArray go r path ds
           = Err (cannot_convert_item (length strs) path item)).
Proof.
  split; [|split; [|split; [|split]]].
  - intros e He. repeat split; intros d ds; unfold_getters; by rewrite He.
  - intros v Hv. repeat split; intros ds; unfold_getters; by rewrite Hv.
  - intros v Hv. unfold_getters. rewrite Hv.
    repeat split; intros ds; intros; destruct v; try done; exfalso; naive_solver.
  - intros s Hs. unfold_getters. rewrite Hs.
    repeat split; intros ds err Herr; by rewrite Herr.
  - intros strs item rest Hv Hitem ds. unfold_getters. rewrite Hv.
    simpl. by rewrite string_items_error.
Qed.

Lemma default_only_when_Get_fails_witness :
  GetInt sample_lib app_registry "app.nonexistent" [5000] = Ok 5000 ∧
  GetInt sample_lib app_registry "app.level" [5000]
  = GetInt sample_lib app_registry "app.level" [] ∧
  GetBool sample_lib app_registry "app.level" [true]
  = Err "cannot convert value at path 'app.level' to bool: found type int".
Proof.
  split; [|split].
  - apply (default_only_when_Get_fails sample_lib app_registry "app.nonexistent")
      with (e := "key not found: 'nonexistent' in path 'app.nonexistent'").
    reflexivity.
  - apply (default_only_when_Get_fails sample_lib app_registry "app.level")
      with (v := VInt 3).
    reflexivity.
  - apply (default_only_when_Get_fails sample_lib app_registry "app.level")
      with (v := VInt 3); [reflexivity|done|done].
Defined.

(** ** Slices of strings in Unmarshal *)

(** [toString] has no error to return. *)
Lemma toString_no_error go h item e : toString go h item ≠ Err e.
Proof.
  destruct item; try done. simpl.
  by destruct (String_method go (VOther typ kind)) as [[s|msg]|].
Qed.

(** It panics when the [String] method of the item does, and only then. *)
Lemma toString_Panic go h item msg :
  toString go h item = Panic msg ↔ String_panics go item msg.
Proof.
  unfold String_panics. split.
  - destruct item; try done. simpl.
    destruct (String_method go (VOther typ kind)) as [[s|msg']|] eqn:Hm; try done.
    intros [= ->]. eauto.
  - intros [(typ & kind & ->) Hm]. simpl. by rewrite Hm.
Qed.

Lemma toString_Ok go h item :
  (∀ msg, ¬ String_panics go item msg) →
  toString go h item = Ok (toString_or_format go h item).
Proof.
  intros Hnp. destruct item; try done. simpl.
  destruct (String_method go (VOther typ kind)) as [[s|msg]|] eqn:Hm; try done.
  destruct (Hnp msg). split; eauto.
Qed.

Lemma toString_items_Ok go h items :
  ∀ i, Forall (fun item => ∀ msg, ¬ String_panics go item msg) items →
       toString_items go h i items = Ok (toString_or_format go h <$> items).
Proof.
  induction items as [|item rest IH]; intros i Hall; simpl; [done|].
  apply Forall_cons in Hall as [Hitem Hrest].
  rewrite toString_Ok by done. by rewrite IH.
Qed.

Lemma toString_items_no_error go h items :
  ∀ i e, toString_items go h i items ≠ Err e.
Proof.
  induction items as [|item rest IH]; intros i e; simpl; [done|].
  destruct (toString go h item) as [str|err|msg] eqn:Hitem; [| |done].
  - specialize (IH (S i)). by destruct (toString_items go h (S i) rest).
  - by apply toString_no_error in Hitem.
Qed.

(** The loop of [toStringSlice] ends at the first item whose method
    panics. *)
Lemma toString_items_Panic go h pre item post msg :
  ∀ i, Forall (fun item => ∀ msg, ¬ String_panics go item msg) pre →
       String_panics go item msg →
       toString_items go h i (pre ++ item :: post) = Panic msg.
Proof.
  induction pre as [|p pre IH]; intros i Hpre Hitem; simpl.
  - apply (proj2 (toString_Panic go h item msg)) in Hitem. by rewrite Hitem.
  - apply Forall_cons in Hpre as [Hp Hpre].
    rewrite toString_Ok by done. by rewrite IH.
Qed.

(** C6, as amended: the case of [setField] for a field of kind slice with
    elements of kind string, that can be set and to whose type a [[]string]
    is assignable.  A [[]string] is stored as it is; the empty string gives
    the empty slice and any other string is split on the comma, the parts
    kept as they are; of a [[]interface{}] each element is converted by
    [toString], a string being kept, a value with a [String] method giving
    what the method returns and every other element being printed, so that
    a sequence gives no error, and panics at the first element whose
    [String] method does; any other value is refused.  For a field of these
    kinds to whose type a [[]string] is not assignable, [field.Set] panics
    whenever the conversion succeeds. *)
Theorem setField_Slice_of_strings (go : GoLib) (h : Heap) (typ : string) :
  (∀ l, setField_Slice go h true String_ true typ (VStrings l) = Ok l) ∧
  setField_Slice go h true String_ true typ (VString EmptyString) = Ok [] ∧
  (∀ s, s ≠ EmptyString →
     setField_Slice go h true String_ true typ (VString s) = Ok (Split s comma)) ∧
  (∀ items, Forall (fun item => ∀ msg, ¬ String_panics go item msg) items →
     setField_Slice go h true String_ true typ (VSlice items)
     = Ok (toString_or_format go h <$> items)) ∧
  (∀ items e, setField_Slice go h true String_ true typ (VSlice items) ≠ Err e) ∧
  (∀ pre item post msg,
     Forall (fun item => ∀ msg, ¬ String_panics go item msg) pre →
     String_panics go item msg →
     setField_Slice go h true String_ true typ (VSlice (pre ++ item :: post))
     = Panic msg) ∧
  (∀ value, (∀ l, value ≠ VStrings l) → (∀ s, value ≠ VString s) →
            (∀ items, value ≠ VSlice items) →
     setField_Slice go h true String_ true typ value
     = Err ("cannot convert " +:+ typeName value +:+ " to []string")) ∧
  (∀ value s, setField_Slice go h true String_ true typ value = Ok s →
     setField_Slice go h true String_ false typ value
     = Panic ("reflect.Set: value of type []string is not assignable to type "
              +:+ typ)).
Proof.
  unfold setField_Slice. cbn [negb].
  destruct (decide (String_ = String_)) as [_|]; [|done].
  split; [|split; [|split; [|split; [|split; [|split; [|split]]]]]].
  - done.
  - done.
  - intros s Hs. unfold toStringSlice. by destruct (decide (s = EmptyString)).
  - intros items Hall. cbn [toStringSlice]. by rewrite toString_items_Ok.
  - intros items e. cbn [toStringSlice].
    pose proof (toString_items_no_error go h items 0 e).
    by destruct (toString_items go h 0 items).
  - intros pre item post msg Hpre Hitem. cbn [toStringSlice].
    by rewrite (toString_items_Panic go h pre item post msg).
  - intros value H1 H2 H3. destruct value; try done; exfalso; naive_solver.
  - intros value s. by destruct (toStringSlice go h value).
Qed.

Lemma setField_Slice_of_strings_witness :
  setField_Slice sample_lib ∅ true String_ true "[]string" (VString "one,two,three")
  = Ok ["one"; "two"; "three"] ∧
  setField_Slice sample_lib ∅ true String_ true "[]string"
                 (VSlice [VString "a"; VInt 1; VOther "time.Duration" Int64])
  = Ok ["a"; "1"; "1h0m0s"] ∧
  setField_Slice sample_lib ∅ true String_ true "[]string"
                 (VSlice [VString "a"; VOther "*main.Level" Pointer; VInt 1])
  = Panic "invalid memory address or nil pointer dereference" ∧
  setField_Slice sample_lib ∅ true String_ true "[]string" (VInt 1)
  = Err "cannot convert int to []string" ∧
  setField_Slice sample_lib ∅ true String_ false "[]main.Role" (VStrings ["admin"])
  = Panic "reflect.Set: value of type []string is not assignable to type []main.Role".
Proof.
  destruct (setField_Slice_of_strings sample_lib ∅ "[]string")
    as (_ & _ & Hsplit & Hitems & _ & Hpanic & Hother & _).
  destruct (setField_Slice_of_strings sample_lib ∅ "[]main.Role")
    as (Hstrings & _ & _ & _ & _ & _ & _ & Hset).
  split; [|split; [|split; [|split]]].
  - apply Hsplit. done.
  - apply (Hitems [VString "a"; VInt 1; VOther "time.Duration" Int64]).
    repeat constructor; intros msg [_ Hm]; discriminate.
  - apply (Hpanic [VString "a"] (VOther "*main.Level" Pointer) [VInt 1]).
    + repeat constructor. intros msg [_ Hm]. discriminate.
    + split; [eauto|reflexivity].
  - apply Hother; done.
  - apply (Hset (VStrings ["admin"]) ["admin"]). apply Hstrings.
Defined.

(** C6 as stated fails on a sequence with an element that is not a string:
    the coercion of [GetStringArray] refuses it, [Unmarshal] prints it. *)
Lemma setField_Slice_not_as_GetStringArray :
  string_array_of sample_lib "t.mixed" (VSlice [VString "a"; VInt 1])
  = Err "cannot convert item at index 1 in path 't.mixed' to string: found type int" ∧
  setField_Slice sample_lib ∅ true String_ true "[]string"
                 (VSlice [VString "a"; VInt 1])
  = Ok ["a"; "1"].
Proof. split; reflexivity. Qed.

(** The parts of a string are trimmed by [GetStringArray] and not by
    [toStringSlice]. *)
Example toStringSlice_keeps_spaces :
  string_array_of sample_lib "t.hosts" (VString "one, two") = Ok ["one"; "two"] ∧
  toStringSlice sample_lib ∅ (VString "one, two") = Ok ["one"; " two"].
Proof. split; reflexivity. Qed.

(** ** The error of GetString *)

(** C7, as amended: when [Get] finds a string [GetString] returns it
    unchanged, and when [Get] finds a value of any other type [GetString]
    fails with the message that names the path, and not the type. *)
Theorem GetString_result (r : ConfigRegistry) (path : string) (v : Value)
    (ds : list string) :
  Get r path = Ok v →
  (∀ s, v = VString s → GetString r path ds = Ok s) ∧
  ((∀ s, v ≠ VString s) →
   GetString r path ds = Err ("value at " +:+ path +:+ " is not a string")).
Proof.
  intros Hv. unfold GetString. rewrite Hv.
  split.
  - by intros s ->.
  - intros Hns. destruct v; try done. by destruct (Hns s).
Qed.

Lemma GetString_result_witness :
  GetString app_registry "app.database.host" [] = Ok "localhost" ∧
  GetString app_registry "app.level" [] = Err "value at app.level is not a string".
Proof.
  split.
  - apply (GetString_result app_registry "app.database.host" (VString "localhost") []);
      reflexivity.
  - apply (GetString_result app_registry "app.level" (VInt 3) []);
      [reflexivity|done].
Defined.

(** C7 as stated fails: on a stored integer the message of [GetString] is
    not the one of the other getters. *)
Lemma GetString_message_differs :
  Get app_registry "app.level" = Ok (VInt 3) ∧
  GetString app_registry "app.level" [] = Err "value at app.level is not a string" ∧
  GetString app_registry "app.level" []
  ≠ Err "cannot convert value at path 'app.level' to string: found type int".
Proof. split; [reflexivity|]. split; [reflexivity|]. discriminate. Qed.

(** ** The path cache *)

Lemma cache_inv_new mem : cache_inv (PathCache.NewPathCache mem).
Proof. intros p s. unfold PathCache.NewPathCache. simpl. by rewrite lookup_empty. Qed.

Lemma cache_inv_Get q st : cache_inv st → cache_inv (PathCache.Get q st).2.
Proof.
  intros Hinv. unfold PathCache.Get.
  destruct (PathCache.cache st !! q) as [c|] eqn:Hq; [done|].
  intros p s. simpl.
  set (a := fresh (dom (PathCache.arrays st))).
  assert (Ha : PathCache.arrays st !! a = None).
  { apply not_elem_of_dom. apply is_fresh. }
  destruct (decide (q = p)) as [->|Hne].
  - rewrite lookup_insert_eq. intros [= <-]. simpl.
    by rewrite lookup_insert_eq.
  - rewrite lookup_insert_ne by done. intros Hs.
    destruct (Hinv p s Hs) as [Harr Hlen]. split; [|done].
    rewrite lookup_insert_ne; [done|]. intros Heq. congruence.
Qed.

Lemma cache_inv_after_calls paths :
  ∀ st, cache_inv st → cache_inv (PathCache.after_calls paths st).
Proof.
  induction paths as [|q rest IH]; intros st Hinv; [done|].
  simpl. apply IH. by apply cache_inv_Get.
Qed.

(** An entry of the cache stays as it is. *)
Lemma cache_Get_keeps q st p s :
  PathCache.cache st !! p = Some s →
  PathCache.cache (PathCache.Get q st).2 !! p = Some s.
Proof.
  intros Hp. unfold PathCache.Get.
  destruct (PathCache.cache st !! q) as [c|] eqn:Hq; [done|]. simpl.
  rewrite lookup_insert_ne; [done|]. congruence.
Qed.

Lemma cache_after_calls_keeps paths :
  ∀ st p s, PathCache.cache st !! p = Some s →
            PathCache.cache (PathCache.after_calls paths st) !! p = Some s.
Proof.
  induction paths as [|q rest IH]; intros st p s Hp; [done|].
  simpl. apply IH. by apply cache_Get_keeps.
Qed.

Lemma cache_Get_stores p st :
  PathCache.cache (PathCache.Get p st).2 !! p = Some (PathCache.Get p st).1.
Proof.
  unfold PathCache.Get.
  destruct (PathCache.cache st !! p) as [c|] eqn:Hp; [done|]. simpl.
  apply lookup_insert_eq.
Qed.

Lemma elements_of_cached st p s :
  cache_inv st → PathCache.cache st !! p = Some s →
  PathCache.elements st s = Split p dot.
Proof.
  intros Hinv Hp. destruct (Hinv p s Hp) as [Harr Hlen].
  unfold PathCache.elements. rewrite Harr, Hlen. simpl. apply firstn_all.
Qed.

(** C8: on a cache made by [NewPathCache] and used by any calls of [Get],
    two calls of [Get] for the same path, with any calls in between, return
    the same slice: the second call returns the slice that the cache holds
    since the first, makes no new array and leaves the cache as it is.  The
    slice holds the segments of the path. *)
Theorem PathCache_Get_identity (mem : gmap loc (list string))
    (earlier between : list string) (p : string) :
  let st0 := PathCache.after_calls earlier (PathCache.NewPathCache mem) in
  let first := PathCache.Get p st0 in
  let st2 := PathCache.after_calls between first.2 in
  let second := PathCache.Get p st2 in
  second.1 = first.1 ∧
  second.2 = st2 ∧
  PathCache.cache st2 !! p = Some first.1 ∧
  PathCache.elements first.2 first.1 = Split p dot ∧
  PathCache.elements second.2 second.1 = Split p dot.
Proof.
  intros st0 first st2 second.
  assert (Hinv0 : cache_inv st0)
    by apply cache_inv_after_calls, cache_inv_new.
  assert (Hinv1 : cache_inv first.2) by by apply cache_inv_Get.
  assert (Hinv2 : cache_inv st2) by by apply cache_inv_after_calls.
  assert (Hc1 : PathCache.cache first.2 !! p = Some first.1)
    by apply cache_Get_stores.
  assert (Hc2 : PathCache.cache st2 !! p = Some first.1)
    by by apply cache_after_calls_keeps.
  assert (Hsecond : second = (first.1, st2)).
  { unfold second, PathCache.Get. by rewrite Hc2. }
  rewrite Hsecond. simpl. repeat split; try done.
  - by apply (elements_of_cached first.2 p).
  - by apply (elements_of_cached st2 p).
Qed.

(** ** The first call of GetConfigRegistry *)

Lemma GetConfigRegistry_after_failure load env :
  GetConfigRegistry load env failed_globals = ((None, None), failed_globals).
Proof. reflexivity. Qed.

Lemma calls_after_failure args :
  Forall (fun out => out = (None, None)) (calls args failed_globals).
Proof.
  induction args as [|[load env] rest IH]; simpl; [constructor|].
  constructor; [done|exact IH].
Qed.

Lemma first_call_error load env res err g1 :
  GetConfigRegistry load env initial_globals = ((res, Some err), g1) →
  res = None ∧ g1 = failed_globals.
Proof.
  unfold GetConfigRegistry, initial_globals. cbn [globalConfigRegistryOnce].
  destruct (init_registry load env) as [initErr made] eqn:Hinit.
  destruct initErr as [e|].
  - intros [= <- <- <-]. split; [done|].
    unfold init_registry in Hinit.
    repeat case_decide; repeat case_match; simplify_eq; done.
  - cbn [globalConfigRegistry]. intros [= _ _]. 
Qed.

(** The first call returns an error in three cases: no [env], an [env] that
    is not one of the four names, and an environment file that does not
    load. *)
Lemma first_call_fails load env :
  (∃ err g1, GetConfigRegistry load env initial_globals = ((None, Some err), g1)) ↔
  env = EmptyString ∨
  ((env = "development" ∨ env = "staging" ∨ env = "production") ∧
   is_Some (load ".env")) ∨
  (env = "testing" ∧ is_Some (load ".env.testing")) ∨
  ¬ (env = "development" ∨ env = "staging" ∨ env = "production" ∨ env = "testing").
Proof.
  unfold GetConfigRegistry, initial_globals, init_registry.
  cbn [globalConfigRegistryOnce globalConfigRegistry].
  destruct (decide (env = EmptyString)) as [->|Hne].
  { split; [by left|]. intros _. by do 2 eexists. }
  destruct (decide (env = "development" ∨ env = "staging" ∨ env = "production"))
    as [Hdsp|Hdsp].
  { destruct (load ".env") as [e|] eqn:Hload.
    - split; [|intros _; by do 2 eexists].
      intros _. right. left. split; [done|]. by eexists.
    - split; [by intros (err & g1 & [=])|].
      intros [?|[[_ [? Hs]]|[[-> _]|Hn]]]; [done|done| |].
      + destruct Hdsp as [?|[?|?]]; done.
      + destruct Hn. naive_solver. }
  destruct (decide (env = "testing")) as [->|Hnt].
  { destruct (load ".env.testing") as [e|] eqn:Hload.
    - split; [|intros _; by do 2 eexists].
      intros _. right. right. left. split; [done|]. by eexists.
    - split; [by intros (err & g1 & [=])|].
      intros [?|[[? _]|[[_ [? Hs]]|Hn]]]; [done|done|done|].
      destruct Hn. naive_solver. }
  split; [|intros _; by do 2 eexists].
  intros _. right. right. right. naive_solver.
Qed.

(** C9: when the first call of [GetConfigRegistry] returns an error, every
    later call, whatever its [env] and whatever the loader of the
    environment file would answer, returns a nil registry and a nil error. *)
Theorem no_retry_after_failed_init (load : string → error) (env : string)
    (res : option ConfigRegistry) (err : string) (g1 : Globals)
    (args : list ((string → error) * string)) :
  GetConfigRegistry load env initial_globals = ((res, Some err), g1) →
  res = None ∧
  globalConfigRegistryOnce g1 = true ∧
  Forall (fun out => out = (None, None)) (calls args g1).
Proof.
  intros Hfirst. destruct (first_call_error load env res err g1 Hfirst) as [-> ->].
  split; [done|]. split; [done|]. apply calls_after_failure.
Qed.

Lemma no_retry_after_failed_init_witness :
  GetConfigRegistry (fun _ => None) "local" initial_globals
  = ((None, Some "invalid env: local"), failed_globals) ∧
  Forall (fun out => out = (None, None))
         (calls [(fun _ => None, "testing"); (fun _ => None, "production")]
                failed_globals).
Proof.
  split; [reflexivity|].
  apply (no_retry_after_failed_init (fun _ => None) "local" None
           "invalid env: local" failed_globals
           [(fun _ => None, "testing"); (fun _ => None, "production")]).
  reflexivity.
Defined.

(** ** Walks, and the entry that setValue assigns *)

Lemma path_maps_step h current part rest :
  rest ≠ [] →
  path_maps h current (part :: rest) =
  current :: match assert_map (map_index h current part) with
             | Some next => path_maps h next rest
             | None => []
             end.
Proof. by destruct rest. Qed.

Lemma setValue_step h current part rest value :
  rest ≠ [] →
  setValue h current (part :: rest) value =
  match assert_map (map_index h current part) with
  | Some next => setValue h next rest value
  | None =>
      let '(l, h1) := make_map h in
      match map_assign h1 current part (VMap (Some l)) with
      | Return _ h2 => setValue h2 (Some l) rest value
      | Panicked v h2 => Panicked v h2
      end
  end.
Proof. by destruct rest. Qed.

Lemma path_cells_step h current part rest :
  rest ≠ [] →
  path_cells h current (part :: rest) =
  (current, part) :: match assert_map (map_index h current part) with
                     | Some next => path_cells h next rest
                     | None => []
                     end.
Proof. by destruct rest. Qed.

Lemma written_cell_step h current part rest :
  rest ≠ [] →
  written_cell h current (part :: rest) =
  match assert_map (map_index h current part) with
  | Some next => written_cell h next rest
  | None => Some (current, part)
  end.
Proof. by destruct rest. Qed.

(** [traverse] reads the entries of its walk only. *)
Lemma traverse_from_agree h h' parts :
  ∀ current visited fullPath,
    (∀ m k, (m, k) ∈ path_cells h current parts →
            map_index h' m k = map_index h m k) →
    traverse_from h' current visited parts fullPath
    = traverse_from h current visited parts fullPath.
Proof.
  induction parts as [|part rest IH]; intros current visited fullPath Hag; [done|].
  assert (Hidx : map_index h' current part = map_index h current part).
  { apply Hag. simpl. set_solver. }
  destruct (decide (rest = [])) as [->|Hrne].
  - simpl. by rewrite Hidx.
  - rewrite !traverse_from_step, Hidx by done.
    rewrite path_cells_step in Hag by done.
    destruct (assert_map (map_index h current part)) as [next|]; [|done].
    apply IH. intros m k Hm. apply Hag. set_solver.
Qed.

(** When the walk meets no nil map, [setValue] returns nil and changes one
    entry of the maps that exist. *)
Lemma setValue_one_entry parts :
  ∀ (h : Heap) (current : mapref) (value : Value),
    parts ≠ [] →
    Forall (allocated h) (path_maps h current parts) →
    ∃ h' l k, setValue h current parts value = Return None h' ∧
              written_cell h current parts = Some (Some l, k) ∧
              l ∈ dom h ∧
              dom h ⊆ dom h' ∧
              (∀ l' k', l' ∈ dom h → (l', k') ≠ (l, k) →
                        map_index h' (Some l') k' = map_index h (Some l') k').
Proof.
  induction parts as [|part rest IH]; intros h current value Hne Hall; [done|].
  destruct (decide (rest = [])) as [->|Hrne].
  - simpl in *. apply Forall_cons in Hall as [Hcur _].
    destruct current as [l0|]; [|done]. simpl in Hcur.
    eexists _, l0, part. split; [reflexivity|]. split; [done|]. split; [done|].
    split; [rewrite dom_insert; set_solver|].
    intros l' k' Hl' Hne'. unfold map_index, deref.
    destruct (decide (l' = l0)) as [->|Hl].
    + rewrite lookup_insert_eq. simpl. rewrite lookup_insert_ne; [done|]. congruence.
    + by rewrite lookup_insert_ne.
  - rewrite path_maps_step in Hall by done.
    rewrite setValue_step, written_cell_step by done.
    apply Forall_cons in Hall as [Hcur Hall].
    destruct current as [l0|]; [|done]. simpl in Hcur.
    destruct (assert_map (map_index h (Some l0) part)) as [next|] eqn:Hidx.
    + by apply IH.
    + destruct (make_map h) as [l h1] eqn:Hmk.
      apply make_map_fresh in Hmk as [Hfresh ->].
      assert (Hl0 : l0 ≠ l) by (intros ->; done).
      cbn [map_assign].
      set (h2 := <[l0 := <[part := VMap (Some l)]> (deref (<[l:=∅]> h) (Some l0))]>
                   (<[l:=∅]> h)).
      assert (Hdom2 : dom h2 = {[l0]} ∪ ({[l]} ∪ dom h)).
      { unfold h2. by rewrite !dom_insert_L. }
      assert (Hempty : ∀ k, map_index h2 (Some l) k = None).
      { intros k. unfold map_index, deref, h2.
        rewrite lookup_insert_ne, lookup_insert_eq by done. simpl.
        apply lookup_empty. }
      assert (Hpm : path_maps h2 (Some l) rest = [Some l]).
      { destruct rest as [|p2 rest']; [done|]. cbn [path_maps].
        destruct rest' as [|p3 rest'']; [done|]. by rewrite Hempty. }
      assert (Hall2 : Forall (allocated h2) (path_maps h2 (Some l) rest)).
      { rewrite Hpm. apply Forall_singleton. simpl. rewrite Hdom2. set_solver. }
      destruct (IH h2 (Some l) value Hrne Hall2)
        as (h' & lw & kw & Hset & Hcell & _ & Hdom & Hframe).
      assert (Hlw : lw = l).
      { destruct rest as [|p2 rest']; [done|]. cbn [written_cell] in Hcell.
        destruct rest' as [|p3 rest'']; [by simplify_eq|].
        rewrite Hempty in Hcell. simpl in Hcell. by simplify_eq. }
      subst lw.
      exists h', l0, part. split; [done|]. split; [done|]. split; [done|].
      split. { etrans; [|exact Hdom]. rewrite Hdom2. set_solver. }
      intros l' k' Hl' Hne'.
      assert (l' ≠ l) by (intros ->; done).
      rewrite Hframe; [|rewrite Hdom2; set_solver|congruence].
      unfold map_index, deref, h2.
      destruct (decide (l' = l0)) as [->|Hl].
      * rewrite lookup_insert_eq. simpl.
        rewrite lookup_insert_ne by congruence.
        by rewrite lookup_insert_ne by done.
      * by rewrite !lookup_insert_ne by done.
Qed.

(** ** Defaults of the schema *)

(** Fields that validate are passed over, and leave the tree as it is. *)
Lemma Validate_passes before :
  ∀ rest h config,
    Forall (field_validates h config) before →
    Validate (before ++ rest) h config = Validate rest h config.
Proof.
  induction before as [|[path field] before IH]; intros rest h config Hall; [done|].
  apply Forall_cons in Hall as [(value & Htr & Hval) Hall]. simpl in Htr, Hval.
  simpl. rewrite Htr, Hval. by apply IH.
Qed.

(** When the visit of the first fields returns nil, the visit goes on with
    the fields that follow, on the tree that the first fields leave. *)
Lemma Validate_app before :
  ∀ rest h config h0,
    Validate before h config = Return None h0 →
    Validate (before ++ rest) h config = Validate rest h0 config.
Proof.
  induction before as [|[path field] before IH]; intros rest h config h0 Hb.
  - simpl in Hb. by injection Hb as ->.
  - simpl in *.
    destruct (traverse h config (Split path dot) path) as [value|e|msg]; [| |done].
    + destruct (validateValue h value field); [done|]. by apply IH.
    + destruct (Required field); [done|].
      destruct (negb (is_nil (Default field))); [|by apply IH].
      destruct (setValue h config (Split path dot) (Default field))
        as [[err|] h'|v h']; [done| |done].
      by apply IH.
Qed.

(** The visit of an optional field that [traverse] does not find and that
    has a default. *)
Lemma Validate_default path field rest h config :
  Required field = false →
  is_nil (Default field) = false →
  (∃ e, traverse h config (Split path dot) path = Err e) →
  Validate ((path, field) :: rest) h config =
  match setValue h config (Split path dot) (Default field) with
  | Return (Some err) h' =>
      Return (Some ("failed to set default value for " +:+ path +:+ ": " +:+ err)) h'
  | Return None h' => Validate rest h' config
  | Panicked v h' => Panicked v h'
  end.
Proof.
  intros Hreq Hdef [e Habs]. cbn [Validate]. by rewrite Habs, Hreq, Hdef.
Qed.

(** Where [traverse] fails, the entry that [setValue] assigns holds no
    map. *)
Lemma written_cell_no_map h parts :
  ∀ current visited fullPath e m k,
    traverse_from h current visited parts fullPath = Err e →
    written_cell h current parts = Some (m, k) →
    assert_map (map_index h m k) = None.
Proof.
  induction parts as [|part rest IH]; intros current visited fullPath e m k Htr Hcell;
    [done|].
  destruct (decide (rest = [])) as [->|Hrne].
  - simpl in *. injection Hcell as <- <-.
    by destruct (map_index h current part).
  - rewrite traverse_from_step in Htr by done.
    rewrite written_cell_step in Hcell by done.
    destruct (assert_map (map_index h current part)) as [next|] eqn:Hidx.
    + by eapply IH.
    + by injection Hcell as <- <-.
Qed.

(** In a map without entries [traverse] finds nothing. *)
Lemma traverse_from_empty h m parts :
  ∀ visited fullPath,
    parts ≠ [] → (∀ k, map_index h m k = None) →
    ∃ e, traverse_from h m visited parts fullPath = Err e.
Proof.
  intros visited fullPath Hne Hempty.
  destruct parts as [|part rest]; [done|].
  destruct (decide (rest = [])) as [->|Hrne].
  - simpl. rewrite Hempty. eauto.
  - rewrite traverse_from_step by done. rewrite Hempty. simpl. eauto.
Qed.

(** Where [traverse] fails and the walk meets no nil map, [setValue]
    returns nil and [traverse] then finds the value. *)
Lemma setValue_where_absent parts :
  ∀ (h : Heap) (current : mapref) (visited : list string) (fullPath : string)
    (value : Value) e,
    parts ≠ [] →
    Forall (allocated h) (path_maps h current parts) →
    traverse_from h current visited parts fullPath = Err e →
    ∃ h', setValue h current parts value = Return None h' ∧
          traverse_from h' current visited parts fullPath = Ok value.
Proof.
  induction parts as [|part rest IH];
    intros h current visited fullPath value e Hne Hall Htr; [done|].
  destruct (decide (rest = [])) as [->|Hrne].
  - simpl in *. apply Forall_cons in Hall as [Hcur _].
    destruct current as [l0|]; [|done].
    eexists. split; [reflexivity|]. by rewrite map_index_assign_eq.
  - rewrite path_maps_step in Hall by done.
    rewrite traverse_from_step in Htr by done.
    rewrite setValue_step by done.
    apply Forall_cons in Hall as [Hcur Hall].
    destruct current as [l0|]; [|done]. simpl in Hcur.
    destruct (assert_map (map_index h (Some l0) part)) as [next|] eqn:Hidx.
    + destruct (IH h next (visited ++ [part])%list fullPath value e Hrne Hall Htr)
        as (h' & Hset & Htr').
      destruct (setValue_one_entry rest h next value Hrne Hall)
        as (h'' & l & k & Hset' & Hcell & _ & _ & Hframe).
      rewrite Hset in Hset'. injection Hset' as <-.
      pose proof (written_cell_no_map h rest next _ _ _ _ _ Htr Hcell) as Hnomap.
      exists h'. split; [done|].
      rewrite traverse_from_step by done.
      rewrite Hframe, Hidx; [done|done|].
      intros [= -> ->]. congruence.
    + destruct (make_map h) as [l h1] eqn:Hmk.
      apply make_map_fresh in Hmk as [Hfresh ->].
      assert (Hl0 : l0 ≠ l) by (intros ->; done).
      cbn [map_assign].
      set (h2 := <[l0 := <[part := VMap (Some l)]> (deref (<[l:=∅]> h) (Some l0))]>
                   (<[l:=∅]> h)).
      assert (Hdom2 : dom h2 = {[l0]} ∪ ({[l]} ∪ dom h)).
      { unfold h2. by rewrite !dom_insert_L. }
      assert (Hempty : ∀ k, map_index h2 (Some l) k = None).
      { intros k. unfold map_index, deref, h2.
        rewrite lookup_insert_ne, lookup_insert_eq by done. simpl.
        apply lookup_empty. }
      assert (Hpm : path_maps h2 (Some l) rest = [Some l]).
      { destruct rest as [|p2 rest']; [done|]. cbn [path_maps].
        destruct rest' as [|p3 rest'']; [done|]. by rewrite Hempty. }
      assert (Hall2 : Forall (allocated h2) (path_maps h2 (Some l) rest)).
      { rewrite Hpm. apply Forall_singleton. simpl. rewrite Hdom2. set_solver. }
      destruct (traverse_from_empty h2 (Some l) rest (visited ++ [part])%list fullPath
                  Hrne Hempty) as [e2 Htr2].
      destruct (IH h2 (Some l) (visited ++ [part])%list fullPath value e2 Hrne Hall2
                  Htr2) as (h' & Hset & Htr').
      destruct (setValue_one_entry rest h2 (Some l) value Hrne Hall2)
        as (h'' & lw & kw & Hset' & Hcell & _ & _ & Hframe).
      rewrite Hset in Hset'. injection Hset' as <-.
      assert (Hlw : lw = l).
      { destruct rest as [|p2 rest']; [done|]. cbn [written_cell] in Hcell.
        destruct rest' as [|p3 rest'']; [by simplify_eq|].
        rewrite Hempty in Hcell. simpl in Hcell. by simplify_eq. }
      subst lw.
      exists h'. split; [done|].
      rewrite traverse_from_step by done.
      rewrite Hframe; [|rewrite Hdom2; set_solver|congruence].
      unfold h2. by rewrite map_index_assign_eq.
Qed.

(** C5, as amended: a schema visited in the order
    [before ++ (path, field) :: after], where [field] is not required and
    has a default that is not nil.  The visit of the fields before returns
    nil, and on the tree that it leaves [traverse] does not find [path] and
    the walk along [path] meets no nil map, the input map included.  Then
    the default is assigned in the caller's tree, where [traverse] finds it,
    and [Validate] goes on with the fields after on the tree so changed.
    When each of them is found there and passes [validateValue], [Validate]
    returns nil and leaves the tree with the default.  More generally, when
    the visit of the fields after returns nil and leaves the entries that
    the walk along [path] reads as they were, [Validate] returns nil and
    [traverse] finds the default in the tree that it leaves. *)
Theorem Validate_injects_default (before after : list (string * ConfigSchemaField))
    (path : string) (field : ConfigSchemaField) (h h0 : Heap) (config : mapref) :
  Required field = false →
  is_nil (Default field) = false →
  Validate before h config = Return None h0 →
  (∃ e, traverse h0 config (Split path dot) path = Err e) →
  Forall (allocated h0) (path_maps h0 config (Split path dot)) →
  ∃ h1, setValue h0 config (Split path dot) (Default field) = Return None h1 ∧
        traverse h1 config (Split path dot) path = Ok (Default field) ∧
        Validate (before ++ (path, field) :: after) h config
        = Validate after h1 config ∧
        (Forall (field_validates h1 config) after →
         Validate (before ++ (path, field) :: after) h config = Return None h1) ∧
        (∀ h2, Validate after h1 config = Return None h2 →
               (∀ m k, (m, k) ∈ path_cells h1 config (Split path dot) →
                       map_index h2 m k = map_index h1 m k) →
               Validate (before ++ (path, field) :: after) h config = Return None h2 ∧
               traverse h2 config (Split path dot) path = Ok (Default field)).
Proof.
  intros Hreq Hdef Hbefore [e Habs] Hall.
  destruct (setValue_where_absent (Split path dot) h0 config [] path (Default field) e
              (Split_nonempty path dot) Hall Habs) as (h1 & Hset & Htr).
  assert (Hgo : Validate (before ++ (path, field) :: after) h config
                = Validate after h1 config).
  { rewrite (Validate_app before _ h config h0 Hbefore).
    rewrite Validate_default by eauto. by rewrite Hset. }
  exists h1. split; [done|]. split; [done|]. split; [done|]. split.
  - intros Hafter. rewrite Hgo, <- (app_nil_r after).
    by rewrite (Validate_passes after [] h1 config Hafter).
  - intros h2 Hrest Hsame. split; [by rewrite Hgo|].
    unfold traverse in *. by rewrite (traverse_from_agree h1 h2).
Qed.

Lemma Validate_injects_default_witness :
  ∃ h2, Validate [("level", level_field); ("database.optional_value", optional_field);
                  ("cache.ttl", ttl_field)]
                 (store app_registry) (Some 1%positive) = Return None h2 ∧
        traverse h2 (Some 1%positive) ["database"; "optional_value"]
                 "database.optional_value" = Ok (VString "default") ∧
        traverse h2 (Some 1%positive) ["cache"; "ttl"] "cache.ttl" = Ok (VInt 60).
Proof.
  destruct (Validate_injects_default [("level", level_field)] [("cache.ttl", ttl_field)]
              "database.optional_value" optional_field
              (store app_registry) (store app_registry) (Some 1%positive))
    as (h1 & Hset & _ & _ & _ & Hafter).
  - reflexivity.
  - reflexivity.
  - reflexivity.
  - eexists. reflexivity.
  - apply (bool_decide_unpack
             (Forall (allocated (store app_registry))
                     (path_maps (store app_registry) (Some 1%positive)
                                (Split "database.optional_value" dot)))).
    vm_compute. exact I.
  - injection Hset as <-.
    edestruct Hafter as [Hval Hdef]; [reflexivity| |].
    + intros m k Hin.
      apply elem_of_cons in Hin as [[= -> ->]|Hin]; [reflexivity|].
      apply elem_of_cons in Hin as [[= -> ->]|Hin]; [reflexivity|].
      by apply elem_of_nil in Hin.
    + eexists. split; [exact Hval|]. split; [exact Hdef|reflexivity].
Defined.

(** C5 as stated fails in three ways.  On the nil map the field is absent,
    and the assignment of the default panics; so it does on the tree
    [{a: m}] with [m] a nil map, for the field [a.b].  On the tree [{a: x}]
    with the schema of [a.b], optional with a default, and [a], a string:
    both fields are as C5 asks, and when [range] visits [a.b] first the
    default replaces the string under [a] by a map, on which [a] no longer
    validates.  On the empty tree with the schema of [a] and [a.b], both
    optional with a default and both absent: when [range] visits [a] first,
    [Validate] returns nil, and the tree holds a map at [a], not the
    default. *)
Lemma Validate_default_failures :
  (Required optional_field = false ∧
   is_nil (Default optional_field) = false ∧
   traverse ∅ None (Split "optional_value" dot) "optional_value"
   = Err "key not found: 'optional_value' in path 'optional_value'" ∧
   Validate [("optional_value", optional_field)] ∅ None
   = Panicked "assignment to entry in nil map" ∅ ∧
   traverse (store nested_nil_registry) (Some 1%positive) (Split "a.b" dot) "a.b"
   = Err "key not found: 'b' in path 'a.b'" ∧
   Validate [("a.b", optional_field)] (store nested_nil_registry) (Some 1%positive)
   = Panicked "assignment to entry in nil map" (store nested_nil_registry)) ∧
  (traverse string_tree (Some 1%positive) (Split "a.b" dot) "a.b"
   = Err "value at 'a' in path 'a.b' is not a map, cannot traverse further" ∧
   field_validates string_tree (Some 1%positive) ("a", string_field) ∧
   (∃ h', Validate [("a.b", optional_field); ("a", string_field)]
                   string_tree (Some 1%positive)
          = Return (Some "validation failed for a: expected type string, got map") h') ∧
   (∃ h', Validate [("a", string_field); ("a.b", optional_field)]
                   string_tree (Some 1%positive) = Return None h' ∧
          traverse h' (Some 1%positive) (Split "a.b" dot) "a.b"
          = Ok (VString "default"))) ∧
  (traverse empty_tree (Some 1%positive) (Split "a" dot) "a"
   = Err "key not found: 'a' in path 'a'" ∧
   traverse empty_tree (Some 1%positive) (Split "a.b" dot) "a.b"
   = Err "key not found: 'a' in path 'a.b'" ∧
   (∃ h', Validate [("a", optional_field); ("a.b", optional_field)]
                   empty_tree (Some 1%positive) = Return None h' ∧
          traverse h' (Some 1%positive) (Split "a" dot) "a"
          = Ok (VMap (Some 2%positive)) ∧
          traverse h' (Some 1%positive) (Split "a.b" dot) "a.b"
          = Ok (VString "default"))).
Proof.
  split; [repeat split|]. split.
  - split; [reflexivity|]. split.
    { exists (VString "x"). split; reflexivity. }
    split; eexists; [reflexivity|split; reflexivity].
  - split; [reflexivity|]. split; [reflexivity|].
    eexists. split; [reflexivity|]. split; reflexivity.
Qed.

(** * Further properties of the code *)

(** ** Splitting and joining paths *)

Lemma Split_length s sep :
  (length (Split s sep) <? 2)%nat = negb (contains_byte sep s).
Proof.
  induction s as [|c s IH]; simpl; [done|].
  destruct (Ascii.eqb c sep); simpl.
  - pose proof (Split_nonempty s sep). by destruct (Split s sep).
  - destruct (Split s sep) as [|w ws] eqn:Hs; [by destruct (Split_nonempty s sep)|].
    simpl in *. done.
Qed.

Lemma Join_cons e rest sep :
  rest ≠ [] → Join (e :: rest) sep = e +:+ sep +:+ Join rest sep.
Proof. by destruct rest. Qed.

Lemma Join_Split s sep : Join (Split s sep) (String sep EmptyString) = s.
Proof.
  induction s as [|c s IH]; [done|].
  cbn [Split]. destruct (Ascii.eqb c sep) eqn:Hc.
  - apply Ascii.eqb_eq in Hc as ->.
    rewrite Join_cons by apply Split_nonempty. simpl. by rewrite IH.
  - destruct (Split s sep) as [|w ws] eqn:Hs; [by destruct (Split_nonempty s sep)|].
    destruct ws as [|w2 ws].
    + simpl in *. by rewrite IH.
    + rewrite Join_cons by done. rewrite Join_cons in IH by done.
      etrans; [|apply (f_equal (String c) IH)]. reflexivity.
Qed.

(** No segment of a split holds the separator. *)
Lemma Split_segments s sep :
  Forall (fun seg => contains_byte sep seg = false) (Split s sep).
Proof.
  induction s as [|c s IH]; simpl; [by constructor|].
  destruct (Ascii.eqb c sep) eqn:Hc.
  - by constructor.
  - destruct (Split s sep) as [|w ws]; [by constructor; [simpl; rewrite Hc|]|].
    apply Forall_cons in IH as [Hw Hws]. constructor; [|done].
    simpl. by rewrite Hc, Hw.
Qed.

(** ** What traverse and Get return *)

Lemma traverse_from_last h current visited p fullPath :
  traverse_from h current visited [p] fullPath =
  match map_index h current p with
  | Some value => Ok value
  | None => Err (key_not_found p fullPath)
  end.
Proof. reflexivity. Qed.

Lemma traverse_from_Ok h pre :
  ∀ config visited p fullPath v,
    traverse_from h config visited (pre ++ [p])%list fullPath = Ok v →
    ∃ cur, descend h config pre = Some cur ∧ map_index h cur p = Some v.
Proof.
  induction pre as [|seg pre IH]; intros config visited p fullPath v Hok.
  - simpl in Hok. exists config. split; [done|].
    by destruct (map_index h config p); simplify_eq.
  - change ((seg :: pre) ++ [p])%list with (seg :: (pre ++ [p]))%list in Hok.
    rewrite traverse_from_step in Hok by (by destruct pre).
    simpl. destruct (assert_map (map_index h config seg)) as [next|].
    + by apply IH in Hok.
    + by destruct (map_index h config seg).
Qed.

Lemma traverse_from_no_panic h pre :
  ∀ config visited p fullPath msg,
    traverse_from h config visited (pre ++ [p])%list fullPath ≠ Panic msg.
Proof.
  induction pre as [|seg pre IH]; intros config visited p fullPath msg.
  - simpl. by destruct (map_index h config p).
  - change ((seg :: pre) ++ [p])%list with (seg :: (pre ++ [p]))%list.
    rewrite traverse_from_step by (by destruct pre).
    destruct (assert_map (map_index h config seg)) as [next|]; [apply IH|].
    by destruct (map_index h config seg).
Qed.

(** X1: [traverse] on the segments [pre ++ [p]] returns a value exactly when
    every segment of [pre] holds a map and the map reached holds [p]; the
    value is the one stored there.  It never panics on a list of segments
    that is not empty, and [fullPath] plays no part in what it finds. *)
Theorem traverse_result (h : Heap) (config : mapref) (pre : list string)
    (p fullPath : string) :
  (∀ v, traverse h config (pre ++ [p]) fullPath = Ok v ↔
        ∃ cur, descend h config pre = Some cur ∧ map_index h cur p = Some v) ∧
  (∀ msg, traverse h config (pre ++ [p]) fullPath ≠ Panic msg) ∧
  (∀ v other, traverse h config (pre ++ [p]) fullPath = Ok v →
              traverse h config (pre ++ [p]) other = Ok v).
Proof.
  assert (Hiff : ∀ full v, traverse h config (pre ++ [p]) full = Ok v ↔
            ∃ cur, descend h config pre = Some cur ∧ map_index h cur p = Some v).
  { intros full v. unfold traverse. split.
    - apply traverse_from_Ok.
    - intros (cur & Hd & Hv).
      rewrite (traverse_from_descend h pre config [] [p] full cur Hd) by done.
      rewrite traverse_from_last. by rewrite Hv. }
  split; [apply Hiff|]. split.
  - intros msg. apply traverse_from_no_panic.
  - intros v other Hv. apply Hiff. by apply Hiff in Hv.
Qed.

Lemma traverse_result_witness :
  traverse (store app_registry) (Some 1%positive) ["database"; "host"]
           "app.database.host" = Ok (VString "localhost").
Proof.
  destruct (traverse_result (store app_registry) (Some 1%positive) ["database"]
              "host" "app.database.host") as (Hiff & _ & _).
  apply Hiff. exists (Some 2%positive). split; reflexivity.
Defined.

(** X2: what [Get] returns, by the segments of the path.  It never panics.
    A first segment that names no section gives the error that names the
    section and the path; a section stored as the nil map gives the
    nil-section error; a path of one segment gives the map of the section
    itself; and a longer path gives a value exactly when the segments between
    the first and the last hold maps and the map reached holds the last. *)
Theorem Get_result (r : ConfigRegistry) (path section : string)
    (rest : list string) :
  Split path dot = section :: rest →
  (∀ msg, Get r path ≠ Panic msg) ∧
  (configs r !! section = None →
   Get r path = Err ("config section not found: '" +:+ section +:+ "' in path '"
                     +:+ path +:+ "'")) ∧
  (configs r !! section = Some None →
   Get r path = Err ("config section is nil: '" +:+ section +:+ "' in path '"
                     +:+ path +:+ "'")) ∧
  (∀ l, configs r !! section = Some (Some l) → rest = [] →
        Get r path = Ok (VMap (Some l))) ∧
  (∀ l (pre : list string) p v,
        configs r !! section = Some (Some l) → rest = (pre ++ [p])%list →
        (Get r path = Ok v ↔
         ∃ cur, descend (store r) (Some l) pre = Some cur ∧
                map_index (store r) cur p = Some v)).
Proof.
  intros Hsplit. unfold Get, lookup_path. rewrite Hsplit.
  split; [|split; [|split; [|split]]].
  - intros msg. destruct (configs r !! section) as [[l|]|]; [|done|done].
    destruct rest as [|x xs]; [done|].
    destruct (@List.exists_last _ (x :: xs)) as (pre & p0 & Heq); [done|].
    pose proof (traverse_from_no_panic (store r) pre (Some l) [] p0 path msg) as Hnp.
    rewrite <- Heq in Hnp.
    unfold traverse. by destruct (traverse_from _ _ _ _ _).
  - by intros ->.
  - by intros ->.
  - by intros l -> ->.
  - intros l pre p v -> ->.
    destruct (pre ++ [p])%list eqn:Happ; [by destruct pre|]. rewrite <- Happ.
    destruct (traverse_result (store r) (Some l) pre p path) as (Hiff & _ & _).
    rewrite <- Hiff. by destruct (traverse _ _ _ _).
Qed.

Lemma Get_result_witness :
  Get nil_registry "test_nil.key"
  = Err "config section is nil: 'test_nil' in path 'test_nil.key'" ∧
  Get app_registry "nonexistent.key"
  = Err "config section not found: 'nonexistent' in path 'nonexistent.key'" ∧
  Get app_registry "app" = Ok (VMap (Some 1%positive)).
Proof.
  split; [|split].
  - apply (Get_result nil_registry "test_nil.key" "test_nil" ["key"]); reflexivity.
  - apply (Get_result app_registry "nonexistent.key" "nonexistent" ["key"]);
      reflexivity.
  - apply (Get_result app_registry "app" "app" [] eq_refl); reflexivity.
Defined.

(** ** What Set refuses and what it writes *)

(** X3: [Set] refuses exactly the paths without a dot and the paths whose
    first segment names no section, in that order, and leaves the registry
    as it was: a path without a dot gives the invalid-path error whatever
    the sections are, a path with a dot whose section is missing gives the
    section error, and no other error is ever returned. *)
Theorem Set_rejections (r : ConfigRegistry) (path : string) (value : Value) :
  (contains_byte dot path = false →
   Set' r path value = Return (Some ("invalid config path: " +:+ path)) r) ∧
  (∀ section rest,
     contains_byte dot path = true →
     Split path dot = section :: rest →
     configs r !! section = None →
     Set' r path value = Return (Some ("config section not found: " +:+ section)) r) ∧
  (∀ e r', Set' r path value = Return (Some e) r' →
     r' = r ∧
     (contains_byte dot path = false ∨
      ∃ section, head (Split path dot) = Some section ∧
                 configs r !! section = None)).
Proof.
  split; [|split].
  - intros Hdot. unfold Set'. cbn zeta. by rewrite Split_length, Hdot.
  - intros section rest Hdot Hsplit Hsec. unfold Set'. cbn zeta.
    rewrite Split_length, Hdot. simpl. by rewrite Hsplit, Hsec.
  - intros e r' Hset.
    destruct (Set_error_cases r path value e r' Hset) as [-> Hcase].
    split; [done|]. destruct Hcase as [[Hlen _]|(section & rest & Hs & Hsec & _)].
    + left. apply Nat.ltb_lt in Hlen. rewrite Split_length in Hlen.
      by destruct (contains_byte dot path).
    + right. exists section. by rewrite Hs.
Qed.

Lemma Set_rejections_witness :
  Set' app_registry "invalid" (VString "value")
  = Return (Some "invalid config path: invalid") app_registry ∧
  Set' app_registry "nonexistent.key" (VString "value")
  = Return (Some "config section not found: nonexistent") app_registry.
Proof.
  split.
  - apply (Set_rejections app_registry "invalid" (VString "value")). reflexivity.
  - apply (Set_rejections app_registry "nonexistent.key" (VString "value")
             ) with (rest := ["key"]); reflexivity.
Defined.

(** When the segments before the last hold maps, [setValue] is one
    assignment in the last of them. *)
Lemma setValue_existing h pre :
  ∀ current l k value,
    descend h current pre = Some (Some l) →
    setValue h current (pre ++ [k])%list value
    = Return None (<[l := <[k := value]> (deref h (Some l))]> h).
Proof.
  induction pre as [|seg pre IH]; intros current l k value Hd.
  - simpl in Hd. by injection Hd as ->.
  - simpl in Hd.
    destruct (assert_map (map_index h current seg)) as [next|] eqn:Ha; [|done].
    change ((seg :: pre) ++ [k])%list with (seg :: (pre ++ [k]))%list.
    cbn [setValue]. destruct (pre ++ [k])%list eqn:Happ; [by destruct pre|].
    rewrite <- Happ, Ha. by apply IH.
Qed.



(** ** Set after Set, and the keys beside *)

(** On a tree path [setValue] leaves a tree path: the maps on the path
    afterwards are those that were on it and maps that are new. *)
Lemma setValue_tree parts :
  ∀ (h : Heap) (current : mapref) (value : Value),
    parts ≠ [] →
    tree_path h current parts →
    ∃ h', setValue h current parts value = Return None h' ∧
          dom h ⊆ dom h' ∧
          (∀ l, l ∈ dom h → Some l ∉ path_maps h current parts →
                h' !! l = h !! l) ∧
          tree_path h' current parts ∧
          (∀ m, m ∈ path_maps h' current parts →
                m ∈ path_maps h current parts ∨ ∃ l, m = Some l ∧ l ∉ dom h).
Proof.
  induction parts as [|part rest IH]; intros h current value Hne Htree; [done|].
  destruct Htree as [Hnd Hall].
  destruct (decide (rest = [])) as [->|Hrne].
  - simpl in *. apply Forall_cons in Hall as [Hcur _].
    destruct current as [l0|]; [|done]. simpl in Hcur.
    eexists. split; [reflexivity|]. split; [rewrite dom_insert; set_solver|].
    split.
    { intros l Hl Hnot. rewrite lookup_insert_ne; [done|].
      intros ->. apply Hnot. set_solver. }
    split; [|by left].
    split; [apply NoDup_singleton|]. apply Forall_singleton. simpl.
    rewrite dom_insert. set_solver.
  - rewrite path_maps_step in Hnd, Hall by done.
    rewrite setValue_step by done.
    apply NoDup_cons in Hnd as [Hnotin Hnd].
    apply Forall_cons in Hall as [Hcur Hall].
    destruct current as [l0|]; [|done]. simpl in Hcur.
    destruct (assert_map (map_index h (Some l0) part)) as [next|] eqn:Hidx.
    + destruct (IH h next value Hrne (conj Hnd Hall))
        as (h' & Hset & Hdom & Hframe & [Hnd' Hall'] & Hmem).
      assert (Hidx' : assert_map (map_index h' (Some l0) part) = Some next).
      { rewrite (map_index_frame h h'); [done|]. by apply Hframe. }
      exists h'. split; [done|]. split; [done|]. split.
      { intros l Hl Hnot. apply Hframe; [done|].
        rewrite path_maps_step, Hidx in Hnot by done. set_solver. }
      unfold tree_path. rewrite !path_maps_step, Hidx, Hidx' by done. split.
      * split.
        -- apply NoDup_cons. split; [|done]. intros Hin.
           destruct (Hmem _ Hin) as [?|(l & [= <-] & Hl)]; [done|]. done.
        -- apply Forall_cons. split; [|done]. simpl. set_solver.
      * intros m Hm. apply elem_of_cons in Hm as [->|Hm]; [left; set_solver|].
        destruct (Hmem m Hm) as [?|?]; [left; set_solver|by right].
    + destruct (make_map h) as [l h1] eqn:Hmk.
      apply make_map_fresh in Hmk as [Hfresh ->].
      assert (Hl0 : l0 ≠ l) by (intros ->; done).
      cbn [map_assign].
      set (h2 := <[l0 := <[part := VMap (Some l)]> (deref (<[l:=∅]> h) (Some l0))]>
                   (<[l:=∅]> h)).
      assert (Hdom2 : dom h2 = {[l0]} ∪ ({[l]} ∪ dom h)).
      { unfold h2. by rewrite !dom_insert_L. }
      assert (Hpm : path_maps h2 (Some l) rest = [Some l]).
      { destruct rest as [|p2 rest']; [done|]. cbn [path_maps].
        destruct rest' as [|p3 rest'']; [done|].
        unfold map_index, deref, h2.
        rewrite lookup_insert_ne, lookup_insert_eq by done. simpl.
        by rewrite lookup_empty. }
      assert (Htree2 : tree_path h2 (Some l) rest).
      { unfold tree_path. rewrite Hpm. split; [apply NoDup_singleton|].
        apply Forall_singleton. simpl. rewrite Hdom2. set_solver. }
      destruct (IH h2 (Some l) value Hrne Htree2)
        as (h' & Hset & Hdom & Hframe & [Hnd' Hall'] & Hmem).
      rewrite Hpm in Hframe, Hmem.
      assert (Hidx' : assert_map (map_index h' (Some l0) part) = Some (Some l)).
      { rewrite (map_index_frame h2 h').
        - unfold h2. by rewrite map_index_assign_eq.
        - apply Hframe; [rewrite Hdom2; set_solver|].
          rewrite list_elem_of_singleton. congruence. }
      exists h'. split; [done|]. split.
      { etrans; [|exact Hdom]. rewrite Hdom2. set_solver. }
      split.
      { intros l' Hl' Hnot.
        assert (l' ≠ l) by (intros ->; done).
        assert (l' ≠ l0) by (intros ->; apply Hnot; set_solver).
        rewrite Hframe.
        - unfold h2. by rewrite !lookup_insert_ne by done.
        - rewrite Hdom2. set_solver.
        - rewrite list_elem_of_singleton. congruence. }
      unfold tree_path. rewrite !path_maps_step, Hidx, Hidx' by done. split.
      * split.
        -- apply NoDup_cons. split; [|done]. intros Hin.
           destruct (Hmem _ Hin) as [Hin'|(l' & [= <-] & Hl')].
           ++ apply list_elem_of_singleton in Hin'. congruence.
           ++ apply Hl'. rewrite Hdom2. set_solver.
        -- apply Forall_cons. split; [|done]. simpl.
           apply Hdom. rewrite Hdom2. set_solver.
      * intros m Hm. apply elem_of_cons in Hm as [->|Hm]; [left; set_solver|].
        right. destruct (Hmem m Hm) as [Hin'|(l' & -> & Hl')].
        -- apply list_elem_of_singleton in Hin' as ->. by exists l.
        -- exists l'. split; [done|]. intros Hin. apply Hl'. rewrite Hdom2.
           set_solver.
Qed.

Lemma Get_traverse r path section rest l :
  Split path dot = section :: rest → rest ≠ [] →
  configs r !! section = Some (Some l) →
  Get r path = traverse (store r) (Some l) rest path.
Proof.
  intros Hsplit Hrest Hsec. unfold Get, lookup_path. rewrite Hsplit, Hsec.
  destruct rest; [done|]. by destruct (traverse _ _ _ _).
Qed.

Lemma Set_setValue r path value section rest config :
  Split path dot = section :: rest → rest ≠ [] →
  configs r !! section = Some config →
  Set' r path value =
  match setValue (store r) config rest value with
  | Return e h => Return e (with_store h r)
  | Panicked v h => Panicked v (with_store h r)
  end.
Proof.
  intros Hsplit Hrest Hsec. unfold Set'. cbn zeta. rewrite Hsplit.
  destruct rest as [|p rest]; [done|]. simpl. by rewrite Hsec.
Qed.

Lemma map_index_allocated h l k v :
  map_index h (Some l) k = Some v → l ∈ dom h.
Proof.
  unfold map_index, deref. intros Hv. apply elem_of_dom.
  destruct (h !! l); [done|]. simpl in Hv. by rewrite lookup_empty in Hv.
Qed.

Lemma map_index_nil h k : map_index h None k = None.
Proof. unfold map_index, deref. apply lookup_empty. Qed.

(** X5: on a walk that stays in a tree, a second [Set] of the same path
    returns nil as the first did, the value read back is the second one, the
    second [Set] makes no new map, and the walk still stays in a tree, so
    that the same holds for every later [Set] of the path. *)
Theorem Set_then_Set (r : ConfigRegistry) (path : string) (v1 v2 : Value)
    (section : string) (rest : list string) (config : mapref) :
  Split path dot = section :: rest →
  rest ≠ [] →
  configs r !! section = Some config →
  tree_path (store r) config rest →
  ∃ r1 r2, Set' r path v1 = Return None r1 ∧
           Set' r1 path v2 = Return None r2 ∧
           Get r2 path = Ok v2 ∧
           dom (store r2) = dom (store r1) ∧
           tree_path (store r2) config rest.
Proof.
  intros Hsplit Hrest Hsec Htree.
  destruct (setValue_tree rest (store r) config v1 Hrest Htree)
    as (h1 & Hset1 & _ & _ & Htree1 & _).
  destruct (setValue_traverse_from rest (store r) config [] path v1 Hrest Htree)
    as (h1' & Hset1' & Htr1 & _ & _).
  rewrite Hset1 in Hset1'. injection Hset1' as <-.
  destruct (setValue_tree rest h1 config v2 Hrest Htree1)
    as (h2 & Hset2 & _ & _ & Htree2 & _).
  destruct (setValue_traverse_from rest h1 config [] path v2 Hrest Htree1)
    as (h2' & Hset2' & Htr2 & _ & _).
  rewrite Hset2 in Hset2'. injection Hset2' as <-.
  exists (with_store h1 r), (with_store h2 r).
  split; [by rewrite (Set_setValue r path v1 section rest config), Hset1|].
  split.
  { rewrite (Set_setValue (with_store h1 r) path v2 section rest config) by done.
    simpl. by rewrite Hset2. }
  assert (Hcfg : ∃ l, config = Some l).
  { destruct Htree as [_ Hall]. destruct rest; [done|]. simpl in Hall.
    apply Forall_cons in Hall as [Hc _]. destruct config; [eauto|done]. }
  destruct Hcfg as [l0 ->].
  split.
  { rewrite (Get_traverse (with_store h2 r) path section rest l0) by done.
    exact Htr2. }
  split; [|done]. simpl.
  destruct (@List.exists_last _ rest Hrest) as (pre & k & ->).
  destruct (traverse_result h1 (Some l0) pre k path) as (Hiff & _ & _).
  apply Hiff in Htr1 as (cur & Hd & Hv).
  destruct cur as [l|]; [|by rewrite map_index_nil in Hv].
  rewrite (setValue_existing h1 pre (Some l0) l k v2 Hd) in Hset2.
  injection Hset2 as <-. rewrite dom_insert_L.
  apply map_index_allocated in Hv. set_solver.
Qed.

Lemma Set_then_Set_witness :
  ∃ r1 r2, Set' app_registry "app.very.deep.key" (VInt 1) = Return None r1 ∧
           Set' r1 "app.very.deep.key" (VInt 2) = Return None r2 ∧
           Get r2 "app.very.deep.key" = Ok (VInt 2) ∧
           dom (store r2) = dom (store r1) ∧
           tree_path (store r2) (Some 1%positive) ["very"; "deep"; "key"].
Proof.
  apply (Set_then_Set app_registry "app.very.deep.key" (VInt 1) (VInt 2) "app"
           ["very"; "deep"; "key"] (Some 1%positive)).
  - reflexivity.
  - done.
  - reflexivity.
  - apply (bool_decide_unpack
             (tree_path (store app_registry) (Some 1%positive)
                        ["very"; "deep"; "key"])).
    vm_compute. exact I.
Defined.

(** X6: what [Set] changes and what it leaves alone.  When the walk meets no
    nil map, [Set] returns nil; it changes neither the table of sections nor
    the loaders and frees no map; among the entries of the maps that exist it
    changes one, the entry that [setValue] assigns; and [Get] of any path
    whose walk does not read that entry returns what it returned before. *)
Theorem Set_changes_one_entry (r : ConfigRegistry) (path : string) (value : Value)
    (section : string) (rest : list string) (config : mapref) :
  Split path dot = section :: rest →
  rest ≠ [] →
  configs r !! section = Some config →
  Forall (allocated (store r)) (path_maps (store r) config rest) →
  ∃ r' l k,
    Set' r path value = Return None r' ∧
    written_cell (store r) config rest = Some (Some l, k) ∧
    configs r' = configs r ∧
    loaders r' = loaders r ∧
    dom (store r) ⊆ dom (store r') ∧
    (∀ l' k', l' ∈ dom (store r) → (l', k') ≠ (l, k) →
              map_index (store r') (Some l') k' = map_index (store r) (Some l') k') ∧
    (∀ other section' rest' config',
       Split other dot = section' :: rest' →
       configs r !! section' = Some config' →
       Forall (fun cell => allocated (store r) cell.1 ∧ cell ≠ (Some l, k))
              (path_cells (store r) config' rest') →
       Get r' other = Get r other).
Proof.
  intros Hsplit Hrest Hsec Hall.
  destruct (setValue_one_entry rest (store r) config value Hrest Hall)
    as (h' & l & k & Hset & Hcell & _ & Hdom & Hframe).
  exists (with_store h' r), l, k.
  split; [by rewrite (Set_setValue r path value section rest config), Hset|].
  split; [done|]. split; [done|]. split; [done|]. split; [done|]. split; [done|].
  intros other section' rest' config' Hsplit' Hsec' Hwalk.
  unfold Get, lookup_path. rewrite Hsplit'. cbn [with_store configs store].
  rewrite Hsec'. destruct config' as [l'|]; [|done].
  destruct rest' as [|p' rest'']; [done|].
  unfold traverse. rewrite (traverse_from_agree (store r) h'); [done|].
  intros m k' Hm. rewrite Forall_forall in Hwalk.
  destruct (Hwalk (m, k') Hm) as [Halloc Hnot]. simpl in Halloc.
  destruct m as [lm|]; [|done]. simpl in Halloc.
  apply Hframe; [done|]. congruence.
Qed.

Lemma Set_changes_one_entry_witness :
  ∃ r', Set' app_registry "app.cache.ttl" (VInt 60) = Return None r' ∧
        Get r' "app.database.host" = Get app_registry "app.database.host".
Proof.
  destruct (Set_changes_one_entry app_registry "app.cache.ttl" (VInt 60) "app"
              ["cache"; "ttl"] (Some 1%positive))
    as (r' & l & k & Hset & Hcell & _ & _ & _ & _ & Hget).
  - reflexivity.
  - done.
  - reflexivity.
  - apply (bool_decide_unpack
             (Forall (allocated (store app_registry))
                     (path_maps (store app_registry) (Some 1%positive)
                                ["cache"; "ttl"]))).
    vm_compute. exact I.
  - exists r'. split; [exact Hset|].
    injection Hcell as <- <-.
    apply (Hget "app.database.host" "app" ["database"; "host"] (Some 1%positive)).
    + reflexivity.
    + reflexivity.
    + repeat constructor; simpl; try (apply bool_decide_unpack; vm_compute; exact I);
        discriminate.
Defined.

(** ** Typed values set and read back *)

Lemma Get_after_Set r path value section rest config :
  Split path dot = section :: rest → rest ≠ [] →
  configs r !! section = Some config →
  tree_path (store r) config rest →
  ∃ r', Set' r path value = Return None r' ∧ Get r' path = Ok value.
Proof.
  intros Hsplit Hrest Hsec Htree.
  destruct (setValue_traverse_from rest (store r) config [] path value Hrest Htree)
    as (h' & Hset & Htr & _ & _).
  exists (with_store h' r).
  split; [by rewrite (Set_setValue r path value section rest config), Hset|].
  destruct config as [l|].
  - by rewrite (Get_traverse (with_store h' r) path section rest l).
  - destruct Htree as [_ Hall]. destruct rest; [done|]. simpl in Hall.
    by apply Forall_cons in Hall as [? _].
Qed.

(** X7: on a walk that stays in a tree, a value set is read back by the
    getter of its own type, with or without a default: a string by
    [GetString], an int by [GetInt], a bool by [GetBool], a float by
    [GetFloat], a slice of strings by [GetStringArray].  An int is also read
    by [GetFloat], converted, and a float by [GetInt], converted; an int is
    refused by [GetString]. *)
Theorem typed_round_trips (go : GoLib) (r : ConfigRegistry) (path section : string)
    (rest : list string) (config : mapref) :
  Split path dot = section :: rest →
  rest ≠ [] →
  configs r !! section = Some config →
  tree_path (store r) config rest →
  (∀ s ds, ∃ r', Set' r path (VString s) = Return None r' ∧
                 GetString r' path ds = Ok s) ∧
  (∀ i ds, ∃ r', Set' r path (VInt i) = Return None r' ∧
                 GetInt go r' path ds = Ok i ∧
                 GetFloat go r' path [] = Ok (int_to_float go i) ∧
                 GetString r' path []
                 = Err ("value at " +:+ path +:+ " is not a string")) ∧
  (∀ b ds, ∃ r', Set' r path (VBool b) = Return None r' ∧
                 GetBool go r' path ds = Ok b) ∧
  (∀ f ds, ∃ r', Set' r path (VFloat f) = Return None r' ∧
                 GetFloat go r' path ds = Ok f ∧
                 GetInt go r' path [] = Ok (float_to_int go f)) ∧
  (∀ l ds, ∃ r', Set' r path (VStrings l) = Return None r' ∧
                 GetStringArray go r' path ds = Ok l).
Proof.
  intros Hsplit Hrest Hsec Htree.
  pose proof (fun value =>
    Get_after_Set r path value section rest config Hsplit Hrest Hsec Htree) as Hrt.
  split; [|split; [|split; [|split]]]; intros x ds.
  - destruct (Hrt (VString x)) as (r' & Hset & Hget).
    exists r'. split; [done|]. unfold_getters. by rewrite Hget.
  - destruct (Hrt (VInt x)) as (r' & Hset & Hget).
    exists r'. split; [done|]. unfold_getters. by rewrite Hget.
  - destruct (Hrt (VBool x)) as (r' & Hset & Hget).
    exists r'. split; [done|]. unfold_getters. by rewrite Hget.
  - destruct (Hrt (VFloat x)) as (r' & Hset & Hget).
    exists r'. split; [done|]. unfold_getters. by rewrite Hget.
  - destruct (Hrt (VStrings x)) as (r' & Hset & Hget).
    exists r'. split; [done|]. unfold_getters. by rewrite Hget.
Qed.

Lemma typed_round_trips_witness :
  ∃ r', Set' app_registry "app.database.port" (VInt 5432) = Return None r' ∧
        GetInt sample_lib r' "app.database.port" [0] = Ok 5432.
Proof.
  destruct (typed_round_trips sample_lib app_registry "app.database.port" "app"
              ["database"; "port"] (Some 1%positive)) as (_ & Hint & _).
  - reflexivity.
  - done.
  - reflexivity.
  - apply (bool_decide_unpack
             (tree_path (store app_registry) (Some 1%positive) ["database"; "port"])).
    vm_compute. exact I.
  - destruct (Hint 5432 [0]) as (r' & Hset & Hget & _). by exists r'.
Defined.

(** ** Sections after Register and Refresh *)

Lemma Split_head_no_dot path section rest :
  Split path dot = section :: rest → contains_byte dot section = false.
Proof.
  intros Hsplit. pose proof (Split_segments path dot) as Hseg.
  rewrite Hsplit in Hseg. by apply Forall_cons in Hseg as [? _].
Qed.





Lemma Register_configs env name loader r r' :
  Register env name loader r = Returned tt r' →
  configs r' = configs r ∨ ∃ c, configs r' = <[name := c]> (configs r).
Proof.
  unfold Register. rewrite load_or_recover. cbn [set_loader store].
  destruct (loader env (store r)) as [m h|[v|] h|]; [| | |done].
  - intros [= <-]. right. by exists m.
  - destruct (set_config_empty_spec name
                (with_store h (set_loader name loader r)))
      as (l & _ & ->).
    intros [= <-]. right. by exists (Some l).
  - intros [= <-]. by left.
Qed.

(** X9: a section registered under a name that holds a dot is out of the
    reach of [Get], and so of the typed getters: [Get] looks a section up by
    the first segment of the path, which holds no dot, so that after such a
    [Register] every [Get] and every typed getter returns what it would
    return with the table of sections as it was before.  [Unmarshal] looks
    a section up by its whole name, and finds the one that the loader
    returned. *)
Theorem Register_dotted_name (env : Env) (name : string) (loader : ConfigLoader)
    (r r' : ConfigRegistry) :
  contains_byte dot name = true →
  Register env name loader r = Returned tt r' →
  (∀ path, Get r' path = Get (with_store (store r') r) path) ∧
  (∀ go path,
     (∀ ds, GetString r' path ds = GetString (with_store (store r') r) path ds) ∧
     (∀ ds, GetInt go r' path ds = GetInt go (with_store (store r') r) path ds) ∧
     (∀ ds, GetBool go r' path ds = GetBool go (with_store (store r') r) path ds) ∧
     (∀ ds, GetFloat go r' path ds
            = GetFloat go (with_store (store r') r) path ds) ∧
     (∀ ds, GetStringArray go r' path ds
            = GetStringArray go (with_store (store r') r) path ds)) ∧
  (∀ m h, loader env (store r) = Loads m h →
          Unmarshal_section r' name true = Ok m).
Proof.
  intros Hdot Hreg.
  assert (Hget : ∀ path, Get r' path = Get (with_store (store r') r) path).
  { intros path. unfold Get, lookup_path.
    destruct (Split path dot) as [|section rest] eqn:Hsplit; [done|].
    cbn [with_store configs store].
    destruct (Register_configs env name loader r r' Hreg) as [->|[c ->]]; [done|].
    rewrite lookup_insert_ne; [done|].
    intros <-. apply Split_head_no_dot in Hsplit. congruence. }
  split; [exact Hget|]. split.
  - intros go path. unfold_getters. by rewrite Hget.
  - intros m h Hload. revert Hreg. unfold Register. rewrite load_or_recover.
    cbn [set_loader store]. rewrite Hload. intros [= <-].
    unfold Unmarshal_section. simpl. by rewrite lookup_insert_eq.
Qed.

Lemma Register_dotted_name_witness :
  Get (registry_after (Register ∅ "app.cache" app_loader empty_registry)) "app.cache"
  = Err "config section not found: 'app' in path 'app.cache'" ∧
  Unmarshal_section (registry_after (Register ∅ "app.cache" app_loader empty_registry))
                    "app.cache" true
  = Ok (Some 1%positive).
Proof.
  destruct (Register_dotted_name ∅ "app.cache" app_loader empty_registry
              (registry_after (Register ∅ "app.cache" app_loader empty_registry))
              eq_refl eq_refl) as (Hget & _ & Hunmarshal).
  split.
  - rewrite Hget. reflexivity.
  - apply (Hunmarshal (Some 1%positive)
             (store (registry_after
                       (Register ∅ "app.cache" app_loader empty_registry)))).
    reflexivity.
Defined.

Lemma refresh_one_sections env name loader r r' :
  refresh_one env name loader r = Returned tt r' →
  loaders r' = loaders r ∧
  (∀ other, other ≠ name → configs r' !! other = configs r !! other) ∧
  (is_Some (configs r !! name) → is_Some (configs r' !! name)) ∧
  ((∀ h, loader env (store r) ≠ LoaderPanics None h) →
   is_Some (configs r' !! name)).
Proof.
  unfold refresh_one. rewrite load_or_recover.
  destruct (loader env (store r)) as [m h|[v|] h|]; [| | |done].
  - intros [= <-]. simpl. split; [done|].
    split; [intros other Hne; by rewrite lookup_insert_ne|].
    rewrite lookup_insert_eq. eauto.
  - cbn [with_store configs].
    destruct (configs r !! name) as [c|] eqn:Hc.
    + intros [= <-]. simpl. rewrite Hc. eauto.
    + destruct (set_config_empty_spec name (with_store h r)) as (l & _ & ->).
      intros [= <-]. simpl. split; [done|].
      split; [intros other Hne; by rewrite lookup_insert_ne|].
      rewrite lookup_insert_eq. eauto.
  - intros [= <-]. simpl. split; [done|]. split; [done|]. split; [done|].
    intros Hnot. by destruct (Hnot h).
Qed.

(** X10: [Refresh] never ends in a panic.  It returns when no loader that
    it visits blocks, and when it does not return it is at a loader that
    does not come back, after the iterations before it have returned.  When
    it returns, the table of loaders is as it was, every section that it did
    not visit is the one it was, and no section has been removed; and when
    none of the loaders panics with a nil value, every name that it visited
    has a section, so that, the entries being those of the table of loaders,
    every name with a loader has a section. *)
Theorem Refresh_keeps_sections (env : Env) (entries : list (string * ConfigLoader))
    (r : ConfigRegistry) :
  (∀ v r', Refresh env entries r ≠ Panicking v r') ∧
  (Forall (fun entry => ∀ h, entry.2 env h ≠ LoaderBlocks) entries →
   ∃ r', Refresh env entries r = Returned tt r') ∧
  (Refresh env entries r = Blocked ↔
   ∃ before name loader after r1,
     entries = (before ++ (name, loader) :: after)%list ∧
     Refresh env before r = Returned tt r1 ∧
     loader env (store r1) = LoaderBlocks) ∧
  (∀ r', Refresh env entries r = Returned tt r' →
     loaders r' = loaders r ∧
     (∀ name, name ∉ entries.*1 → configs r' !! name = configs r !! name) ∧
     (∀ name, is_Some (configs r !! name) → is_Some (configs r' !! name)) ∧
     (Forall (fun entry => ∀ h h', entry.2 env h ≠ LoaderPanics None h') entries →
      ∀ name, name ∈ entries.*1 → is_Some (configs r' !! name))) ∧
  (∀ r', Refresh env entries r = Returned tt r' →
     entries ≡ₚ map_to_list (loaders r) →
     Forall (fun entry => ∀ h h', entry.2 env h ≠ LoaderPanics None h') entries →
     ∀ name, is_Some (loaders r !! name) → is_Some (configs r' !! name)).
Proof.
  split; [intros v r'; apply refresh_loop_no_panic|].
  cut ((Forall (fun entry => ∀ h, entry.2 env h ≠ LoaderBlocks) entries →
        ∃ r', Refresh env entries r = Returned tt r') ∧
       (Refresh env entries r = Blocked →
        ∃ before name loader after r1,
          entries = (before ++ (name, loader) :: after)%list ∧
          Refresh env before r = Returned tt r1 ∧
          loader env (store r1) = LoaderBlocks) ∧
       (∀ r', Refresh env entries r = Returned tt r' →
          loaders r' = loaders r ∧
          (∀ name, name ∉ entries.*1 → configs r' !! name = configs r !! name) ∧
          (∀ name, is_Some (configs r !! name) → is_Some (configs r' !! name)) ∧
          (Forall (fun entry => ∀ h h', entry.2 env h ≠ LoaderPanics None h') entries →
           ∀ name, name ∈ entries.*1 → is_Some (configs r' !! name)))).
  { intros (Hret & Hblock & Hafter). split; [done|]. split; [|split; [done|]].
    { split; [exact Hblock|].
      intros (before & name & loader & after & r1 & -> & Hbefore & Hlo).
      unfold Refresh in *.
      rewrite (refresh_loop_app env before ((name, loader) :: after) r r1 Hbefore).
      simpl. unfold refresh_one. by rewrite load_or_recover, Hlo. }
    intros r' Hr' Hperm Hall name [lo Hlo].
    destruct (Hafter r' Hr') as (_ & _ & _ & Hin). apply Hin; [done|].
    apply list_elem_of_fmap. exists (name, lo). split; [done|].
    rewrite Hperm. by apply elem_of_map_to_list. }
  unfold Refresh. revert r.
  induction entries as [|[name loader] rest IH]; intros r.
  - simpl. split; [eauto|]. split; [done|].
    intros r' [= <-]. repeat split; try done.
    intros _ name Hin. by apply elem_of_nil in Hin.
  - destruct (refresh_one env name loader r) as [[] r1|v r1|] eqn:Hone.
    + destruct (refresh_one_sections env name loader r r1 Hone)
        as (Hlo1 & Hoth1 & Hkeep1 & Hname1).
      destruct (IH r1) as (Hret & Hblock & Hafter).
      simpl. rewrite Hone. split; [|split].
      * intros Hall. apply Forall_cons in Hall as [_ Hall]. by apply Hret.
      * intros Hb.
        destruct (Hblock Hb) as (before & n & lo & after & r2 & -> & Hbefore & Hlo).
        exists ((name, loader) :: before), n, lo, after, r2.
        split; [done|]. split; [|done]. simpl. by rewrite Hone.
      * intros r' Hr'. destruct (Hafter r' Hr') as (Hlo & Hout & Hkeep & Hin).
        split; [congruence|].
        assert (Hkeep' : ∀ n, is_Some (configs r !! n) → is_Some (configs r1 !! n)).
        { intros n Hn. destruct (decide (n = name)) as [->|Hne]; [by apply Hkeep1|].
          by rewrite Hoth1. }
        split; [|split].
        -- intros n Hn. rewrite Hout by set_solver. apply Hoth1. set_solver.
        -- intros n Hn. by apply Hkeep, Hkeep'.
        -- intros Hall n Hn. apply Forall_cons in Hall as [Hnil Hall].
           apply elem_of_cons in Hn as [->|Hn]; [|by apply Hin].
           apply Hkeep, Hname1. intros h. apply Hnil.
    + by apply recovering_no_panic in Hone.
    + simpl. rewrite Hone. split; [|split; [|done]].
      * intros Hall. apply Forall_cons in Hall as [Hnb _]. exfalso.
        revert Hone. unfold refresh_one. rewrite load_or_recover.
        destruct (loader env (store r)) as [m h|[v|] h|] eqn:Hload; try done.
        by destruct (Hnb (store r)).
      * intros _. exists [], name, loader, rest, r. split; [done|]. split; [done|].
        revert Hone. unfold refresh_one. rewrite load_or_recover.
        by destruct (loader env (store r)) as [m h|[v|] h|].
Qed.

Lemma Refresh_keeps_sections_witness :
  (∃ r', Refresh ∅ [("test_panic", panic_loader); ("app", app_loader)] app_registry
         = Returned tt r' ∧
         is_Some (configs r' !! "test_panic") ∧
         configs r' !! "test_nil" = configs app_registry !! "test_nil") ∧
  Refresh ∅ [("app", app_loader); ("asking", asking_loader); ("test_nil", nil_loader)]
          app_registry
  = Blocked.
Proof.
  split.
  - destruct (Refresh_keeps_sections ∅
                [("test_panic", panic_loader); ("app", app_loader)] app_registry)
      as (_ & Hret & _ & Hafter & _).
    destruct Hret as [r' Hr'].
    { repeat constructor; intros h; discriminate. }
    exists r'. split; [exact Hr'|].
    destruct (Hafter r' Hr') as (_ & Hout & _ & Hin).
    split.
    + apply Hin; [repeat constructor; intros h h'; discriminate|].
      simpl. set_solver.
    + apply Hout. simpl. set_solver.
  - apply (Refresh_keeps_sections ∅
             [("app", app_loader); ("asking", asking_loader); ("test_nil", nil_loader)]
             app_registry).
    exists [("app", app_loader)], "asking", asking_loader, [("test_nil", nil_loader)],
           (registry_after (Refresh ∅ [("app", app_loader)] app_registry)).
    split; [reflexivity|]. split; reflexivity.
Defined.

(** ** What Validate reports *)

(** X11: [Validate] stops at the first field, in the order visited, that
    does not validate, and when nothing was injected before it the tree is
    as it was.  With the fields visited before validating: a required field
    that [traverse] does not find gives the missing-field error; a value of
    another kind than the field's gives the type error that names both; a
    nil value of a required field, and an error of the validator, are
    reported under the path; an optional field that is absent and has no
    default is passed over; and when every field validates the result is
    nil. *)
Theorem Validate_first_failure (before after : list (string * ConfigSchemaField))
    (path : string) (field : ConfigSchemaField) (h : Heap) (config : mapref) :
  Forall (field_validates h config) before →
  Validate before h config = Return None h ∧
  (∀ e, traverse h config (Split path dot) path = Err e → Required field = true →
     Validate (before ++ (path, field) :: after) h config
     = Return (Some ("required field missing: " +:+ path)) h) ∧
  (∀ e, traverse h config (Split path dot) path = Err e → Required field = false →
     is_nil (Default field) = true →
     Validate (before ++ (path, field) :: after) h config = Validate after h config) ∧
  (∀ value, traverse h config (Split path dot) path = Ok value →
     is_nil value = false → kind_of value ≠ Type_ field →
     Validate (before ++ (path, field) :: after) h config
     = Return (Some ("validation failed for " +:+ path +:+ ": expected type "
                     +:+ kindName (Type_ field) +:+ ", got "
                     +:+ kindName (kind_of value))) h) ∧
  (traverse h config (Split path dot) path = Ok VNil → Required field = true →
     Validate (before ++ (path, field) :: after) h config
     = Return (Some ("validation failed for " +:+ path +:+ ": required field is nil"))
              h) ∧
  (∀ value validator err,
     traverse h config (Split path dot) path = Ok value →
     is_nil value = false → kind_of value = Type_ field →
     Validator field = Some validator → validator h value = Some err →
     Validate (before ++ (path, field) :: after) h config
     = Return (Some ("validation failed for " +:+ path +:+ ": " +:+ err)) h).
Proof.
  intros Hbefore.
  split.
  { rewrite <- (app_nil_r before). by rewrite (Validate_passes before [] h config). }
  repeat split.
  - intros e Htr Hreq. rewrite (Validate_passes before _ h config Hbefore).
    cbn [Validate]. by rewrite Htr, Hreq.
  - intros e Htr Hreq Hdef. rewrite (Validate_passes before _ h config Hbefore).
    cbn [Validate]. by rewrite Htr, Hreq, Hdef.
  - intros value Htr Hnil Hkind. rewrite (Validate_passes before _ h config Hbefore).
    cbn [Validate]. rewrite Htr. unfold validateValue. rewrite Hnil.
    by destruct (decide (kind_of value ≠ Type_ field)).
  - intros Htr Hreq. rewrite (Validate_passes before _ h config Hbefore).
    cbn [Validate]. rewrite Htr. unfold validateValue. simpl. by rewrite Hreq.
  - intros value validator err Htr Hnil Hkind Hval Herr.
    rewrite (Validate_passes before _ h config Hbefore).
    cbn [Validate]. rewrite Htr. unfold validateValue. rewrite Hnil.
    destruct (decide (kind_of value ≠ Type_ field)); [done|].
    by rewrite Hval, Herr.
Qed.

Lemma Validate_first_failure_witness :
  Validate [("level", level_field); ("validated_value", level_field)]
           (store app_registry) (Some 1%positive)
  = Return (Some "required field missing: validated_value") (store app_registry) ∧
  Validate [("level", level_field); ("database", level_field)]
           (store app_registry) (Some 1%positive)
  = Return (Some "validation failed for database: expected type int, got map")
           (store app_registry).
Proof.
  assert (Hb : Forall (field_validates (store app_registry) (Some 1%positive))
                      [("level", level_field)]).
  { apply Forall_singleton. exists (VInt 3). split; reflexivity. }
  split.
  - apply (Validate_first_failure [("level", level_field)] [] "validated_value"
             level_field (store app_registry) (Some 1%positive) Hb)
      with (e := "key not found: 'validated_value' in path 'validated_value'");
      reflexivity.
  - apply (Validate_first_failure [("level", level_field)] [] "database"
             level_field (store app_registry) (Some 1%positive) Hb)
      with (value := VMap (Some 2%positive)); [reflexivity|reflexivity|done].
Defined.

(** X12: the default that [Validate] injects is not checked when it is
    injected, and is checked like any stored value by the next [Validate] on
    the same tree.  For a schema visited in the order
    [before ++ (path, field) :: after], with [field] not required and its
    default not nil, on a tree where the visit of the fields before returns
    nil, [traverse] then does not find [path] and the walk along [path]
    meets no nil map: the first run is the visit of the fields after on the
    tree with the default, and the type and the validator of [field] play no
    part in it.  For a second run on the tree that the first run left, when
    its visit of the fields before returns nil and [traverse] then finds the
    default at [path]: it returns the validation error of [path] when the
    default does not pass [validateValue], and goes on with the fields
    after when it does.  In particular, when each of the other fields is
    found and passes [validateValue] on the tree with the default, the first
    run returns nil, and the second run changes nothing and returns nil
    exactly when the default passes [validateValue]. *)
Theorem Validate_again (before after : list (string * ConfigSchemaField))
    (path : string) (field : ConfigSchemaField) (h h0 : Heap) (config : mapref) :
  Required field = false →
  is_nil (Default field) = false →
  Validate before h config = Return None h0 →
  (∃ e, traverse h0 config (Split path dot) path = Err e) →
  Forall (allocated h0) (path_maps h0 config (Split path dot)) →
  ∃ h1, setValue h0 config (Split path dot) (Default field) = Return None h1 ∧
        Validate (before ++ (path, field) :: after) h config
        = Validate after h1 config ∧
        (∀ field', Required field' = false → Default field' = Default field →
           Validate (before ++ (path, field') :: after) h config
           = Validate (before ++ (path, field) :: after) h config) ∧
        (∀ h2 h3,
           Validate after h1 config = Return None h2 →
           Validate before h2 config = Return None h3 →
           traverse h3 config (Split path dot) path = Ok (Default field) →
           Validate (before ++ (path, field) :: after) h config = Return None h2 ∧
           Validate (before ++ (path, field) :: after) h2 config
           = match validateValue h3 (Default field) field with
             | Some err =>
                 Return (Some ("validation failed for " +:+ path +:+ ": " +:+ err)) h3
             | None => Validate after h3 config
             end) ∧
        (Forall (field_validates h1 config) (before ++ after) →
           Validate (before ++ (path, field) :: after) h config = Return None h1 ∧
           (Validate (before ++ (path, field) :: after) h1 config = Return None h1 ↔
            validateValue h1 (Default field) field = None) ∧
           (∀ err, validateValue h1 (Default field) field = Some err →
              Validate (before ++ (path, field) :: after) h1 config
              = Return (Some ("validation failed for " +:+ path +:+ ": " +:+ err))
                       h1)).
Proof.
  intros Hreq Hdef Hbefore [e Habs] Hall.
  destruct (setValue_where_absent (Split path dot) h0 config [] path (Default field) e
              (Split_nonempty path dot) Hall Habs) as (h1 & Hset & Htr).
  assert (Hgo : ∀ field', Required field' = false → Default field' = Default field →
                  Validate (before ++ (path, field') :: after) h config
                  = Validate after h1 config).
  { intros field' Hreq' Hdef'.
    rewrite (Validate_app before _ h config h0 Hbefore).
    rewrite Validate_default; [|done|by rewrite Hdef'|eauto].
    by rewrite Hdef', Hset. }
  assert (Hfound : ∀ h2 h3,
            Validate before h2 config = Return None h3 →
            traverse h3 config (Split path dot) path = Ok (Default field) →
            Validate (before ++ (path, field) :: after) h2 config
            = match validateValue h3 (Default field) field with
              | Some err =>
                  Return (Some ("validation failed for " +:+ path +:+ ": " +:+ err)) h3
              | None => Validate after h3 config
              end).
  { intros h2 h3 Hb Htr3. rewrite (Validate_app before _ h2 config h3 Hb).
    cbn [Validate]. by rewrite Htr3. }
  exists h1. split; [done|]. split; [by apply Hgo|]. split; [|split].
  - intros field' Hreq' Hdef'. rewrite (Hgo field') by done. by rewrite (Hgo field).
  - intros h2 h3 Hrest Hb Htr3. split; [by rewrite (Hgo field)|by apply Hfound].
  - intros Hothers. apply Forall_app in Hothers as [Hb Ha].
    assert (Hbefore1 : Validate before h1 config = Return None h1).
    { rewrite <- (app_nil_r before). by rewrite (Validate_passes before [] h1 config). }
    assert (Hafter1 : Validate after h1 config = Return None h1).
    { rewrite <- (app_nil_r after). by rewrite (Validate_passes after [] h1 config). }
    split; [by rewrite (Hgo field)|].
    rewrite (Hfound h1 h1 Hbefore1 Htr), Hafter1.
    destruct (validateValue h1 (Default field) field) as [err|]; split; try done.
    by intros err' [= ->].
Qed.

Lemma Validate_again_witness :
  ∃ h2, Validate [("database.pool", pool_field); ("cache.ttl", ttl_field)]
                 (store app_registry) (Some 1%positive) = Return None h2 ∧
        Validate [("database.pool", pool_field); ("cache.ttl", ttl_field)]
                 h2 (Some 1%positive)
        = Return (Some "validation failed for database.pool: expected type int, got string")
                 h2.
Proof.
  destruct (Validate_again [] [("cache.ttl", ttl_field)] "database.pool" pool_field
              (store app_registry) (store app_registry) (Some 1%positive))
    as (h1 & Hset & _ & _ & Hsecond & _).
  - reflexivity.
  - reflexivity.
  - reflexivity.
  - eexists. reflexivity.
  - apply (bool_decide_unpack
             (Forall (allocated (store app_registry))
                     (path_maps (store app_registry) (Some 1%positive)
                                (Split "database.pool" dot)))).
    vm_compute. exact I.
  - injection Hset as <-.
    edestruct Hsecond as [Hfirst Hnext]; [reflexivity|reflexivity|reflexivity|].
    eexists. split; [exact Hfirst|exact Hnext].
Defined.

(** ** The path cache, whatever the calls *)

Lemma cache_separate_Get q st :
  cache_inv st → cache_separate st → cache_separate (PathCache.Get q st).2.
Proof.
  intros Hinv Hsep. unfold PathCache.Get.
  destruct (PathCache.cache st !! q) as [c|] eqn:Hq; [done|].
  set (a := fresh (dom (PathCache.arrays st))).
  assert (Ha : PathCache.arrays st !! a = None).
  { apply not_elem_of_dom. apply is_fresh. }
  intros p1 p2 s t. simpl. intros H1 H2 Heq.
  destruct (decide (q = p1)) as [<-|Hn1]; destruct (decide (q = p2)) as [<-|Hn2];
    [done| | |].
  - rewrite lookup_insert_eq in H1. rewrite lookup_insert_ne in H2 by done.
    injection H1 as <-. simpl in Heq.
    destruct (Hinv p2 t H2) as [Harr _]. congruence.
  - rewrite lookup_insert_eq in H2. rewrite lookup_insert_ne in H1 by done.
    injection H2 as <-. simpl in Heq.
    destruct (Hinv p1 s H1) as [Harr _]. congruence.
  - rewrite lookup_insert_ne in H1, H2 by done. by eapply Hsep.
Qed.

Lemma cache_Get_dom q st :
  dom (PathCache.cache (PathCache.Get q st).2) = {[q]} ∪ dom (PathCache.cache st).
Proof.
  unfold PathCache.Get.
  destruct (PathCache.cache st !! q) as [c|] eqn:Hq; simpl.
  - apply elem_of_dom_2 in Hq. set_solver.
  - by rewrite dom_insert_L.
Qed.

Lemma cache_Get_arrays q st a :
  a ∈ dom (PathCache.arrays st) →
  PathCache.arrays (PathCache.Get q st).2 !! a = PathCache.arrays st !! a.
Proof.
  intros Ha. unfold PathCache.Get.
  destruct (PathCache.cache st !! q) as [c|] eqn:Hq; [done|]. simpl.
  rewrite lookup_insert_ne; [done|]. intros <-. by apply is_fresh in Ha.
Qed.

Lemma cache_Get_arrays_dom q st :
  dom (PathCache.arrays st) ⊆ dom (PathCache.arrays (PathCache.Get q st).2).
Proof.
  unfold PathCache.Get.
  destruct (PathCache.cache st !! q) as [c|] eqn:Hq; [done|]. simpl.
  rewrite dom_insert. set_solver.
Qed.

Lemma after_calls_invariants paths :
  ∀ st, cache_inv st → cache_separate st →
        cache_inv (PathCache.after_calls paths st) ∧
        cache_separate (PathCache.after_calls paths st) ∧
        dom (PathCache.cache (PathCache.after_calls paths st))
        = list_to_set paths ∪ dom (PathCache.cache st) ∧
        (∀ a, a ∈ dom (PathCache.arrays st) →
              PathCache.arrays (PathCache.after_calls paths st) !! a
              = PathCache.arrays st !! a).
Proof.
  induction paths as [|q rest IH]; intros st Hinv Hsep.
  - simpl. split; [done|]. split; [done|]. split; [set_solver|done].
  - simpl.
    destruct (IH (PathCache.Get q st).2 (cache_inv_Get q st Hinv)
                 (cache_separate_Get q st Hinv Hsep)) as (Hi & Hs & Hd & Ha).
    fold (PathCache.after_calls rest (PathCache.Get q st).2) in *.
    split; [done|]. split; [done|]. split.
    + change (foldl (λ st0 q0, (PathCache.Get q0 st0).2) (PathCache.Get q st).2 rest)
        with (PathCache.after_calls rest (PathCache.Get q st).2).
      rewrite Hd, cache_Get_dom. set_solver.
    + intros a Hin.
      change (foldl (λ st0 q0, (PathCache.Get q0 st0).2) (PathCache.Get q st).2 rest)
        with (PathCache.after_calls rest (PathCache.Get q st).2).
      rewrite Ha by (by apply cache_Get_arrays_dom). by apply cache_Get_arrays.
Qed.

(** X13: a cache made by [NewPathCache], after any calls of [Get]: it holds
    an entry for the paths asked for and for no other; the slice it holds for
    a path has the segments of the path, and joining them with dots gives the
    path back; the slices of two paths are in two arrays; and the arrays that
    were in memory before are as they were. *)
Theorem PathCache_after_any_calls (mem : gmap loc (list string))
    (paths : list string) :
  let st := PathCache.after_calls paths (PathCache.NewPathCache mem) in
  dom (PathCache.cache st) = list_to_set paths ∧
  (∀ p s, PathCache.cache st !! p = Some s →
          PathCache.elements st s = Split p dot ∧
          Join (PathCache.elements st s) "." = p) ∧
  (∀ p q s t, PathCache.cache st !! p = Some s → PathCache.cache st !! q = Some t →
              PathCache.array s = PathCache.array t → p = q) ∧
  (∀ a, a ∈ dom mem → PathCache.arrays st !! a = mem !! a).
Proof.
  intros st. subst st.
  destruct (after_calls_invariants paths (PathCache.NewPathCache mem)
              (cache_inv_new mem)) as (Hinv & Hsep & Hdom & Harr).
  { intros p q s t. simpl. by rewrite lookup_empty. }
  split; [rewrite Hdom; simpl; set_solver|]. split; [|split; [exact Hsep|exact Harr]].
  intros p s Hp. rewrite (elements_of_cached _ p s Hinv Hp).
  split; [done|]. apply (Join_Split p dot).
Qed.

Lemma PathCache_after_any_calls_witness :
  dom (PathCache.cache
         (PathCache.after_calls ["app.name"; "database.connections.mysql.host"]
                                (PathCache.NewPathCache ∅)))
  = list_to_set ["app.name"; "database.connections.mysql.host"].
Proof.
  apply (PathCache_after_any_calls ∅ ["app.name"; "database.connections.mysql.host"]).
Defined.

(** ** The registry of the process, once made *)

(** X14: when the first call of [GetConfigRegistry] returns a registry, its
    [env] was one of the four names and the environment file loaded, and the
    registry has no section and no loader; and every later call returns that
    same registry with a nil error, whatever its [env], the empty and the
    unknown ones included, and whatever the loader of the environment file
    would answer. *)
Theorem singleton_after_success (load : string → error) (env : string)
    (reg : ConfigRegistry) (g1 : Globals)
    (args : list ((string → error) * string)) :
  GetConfigRegistry load env initial_globals = ((Some reg, None), g1) →
  ((env = "development" ∨ env = "staging" ∨ env = "production") ∧ load ".env" = None ∨
   env = "testing" ∧ load ".env.testing" = None) ∧
  (configs reg = ∅ ∧ loaders reg = ∅) ∧
  Forall (fun out => out = (Some reg, None)) (calls args g1).
Proof.
  unfold GetConfigRegistry, initial_globals, init_registry.
  cbn [globalConfigRegistryOnce globalConfigRegistry].
  intros Hfirst.
  assert (Hg1 : g1 = {| globalConfigRegistry := Some reg;
                        globalConfigRegistryOnce := true |} ∧
                reg = {| store := ∅; configs := ∅; loaders := ∅ |} ∧
                ((env = "development" ∨ env = "staging" ∨ env = "production") ∧
                 load ".env" = None ∨
                 env = "testing" ∧ load ".env.testing" = None)).
  { destruct (decide (env = EmptyString)); [done|].
    destruct (decide (env = "development" ∨ env = "staging" ∨ env = "production")).
    - destruct (load ".env") eqn:Hload; [done|]. simpl in Hfirst.
      injection Hfirst as <- <-. auto.
    - destruct (decide (env = "testing")); [|done].
      destruct (load ".env.testing") eqn:Hload; [done|]. simpl in Hfirst.
      injection Hfirst as <- <-. auto. }
  destruct Hg1 as (-> & Hreg & Henv). split; [done|]. split; [by rewrite Hreg|].
  clear. induction args as [|[load' env'] rest IH]; simpl; [constructor|].
  constructor; [done|exact IH].
Qed.

Lemma singleton_after_success_witness :
  Forall (fun out => out = (Some empty_registry, None))
         (calls [(fun _ => Some "no such file", EmptyString); (fun _ => None, "local")]
                (GetConfigRegistry (fun _ => None) "testing" initial_globals).2).
Proof.
  destruct (singleton_after_success (fun _ => None) "testing" empty_registry
              (GetConfigRegistry (fun _ => None) "testing" initial_globals).2
              [(fun _ => Some "no such file", EmptyString); (fun _ => None, "local")]
              eq_refl) as (_ & _ & Hall).
  exact Hall.
Defined.

(** ** Arrays from the environment and from the configuration *)

(** X15: for a variable that is set, [GetEnvStringArray] never returns the
    default and never returns an empty slice.  On a value that is not empty
    it returns what the conversion of [GetStringArray] returns for the same
    string; on the empty value it returns one element, the trimmed empty
    string, where [GetStringArray] returns no element.  For a variable that
    is not set it returns the default. *)
Theorem env_array_and_config_array (go : GoLib) (env : Env) (key : string)
    (defaultValue : list string) (path : string) :
  (env !! key = None → GetEnvStringArray go env key defaultValue = defaultValue) ∧
  (∀ value, env !! key = Some value →
     GetEnvStringArray go env key defaultValue ≠ [] ∧
     length (GetEnvStringArray go env key defaultValue) = length (Split value comma) ∧
     (value ≠ EmptyString →
      string_array_of go path (VString value)
      = Ok (GetEnvStringArray go env key defaultValue)) ∧
     (value = EmptyString →
      GetEnvStringArray go env key defaultValue = [TrimSpace go EmptyString] ∧
      string_array_of go path (VString value) = Ok [])).
Proof.
  unfold GetEnvStringArray. split; [by intros ->|].
  intros value ->. split; [|split; [|split]].
  - pose proof (Split_nonempty value comma). by destruct (Split value comma).
  - by rewrite length_fmap.
  - intros Hne. unfold string_array_of. by destruct (decide (value = EmptyString)).
  - by intros ->.
Qed.

Lemma env_array_and_config_array_witness :
  string_array_of sample_lib "app.hosts" (VString "one, two")
  = Ok (GetEnvStringArray sample_lib {[ "ALLOWED_HOSTS" := "one, two" ]}
                          "ALLOWED_HOSTS" ["localhost"]) ∧
  GetEnvStringArray sample_lib {[ "ALLOWED_HOSTS" := EmptyString ]} "ALLOWED_HOSTS"
                    ["localhost"]
  = [EmptyString].
Proof.
  split.
  - destruct (env_array_and_config_array sample_lib
                {[ "ALLOWED_HOSTS" := "one, two" ]} "ALLOWED_HOSTS" ["localhost"]
                "app.hosts") as [_ Hset].
    destruct (Hset "one, two" eq_refl) as (_ & _ & Hsame & _).
    apply Hsame. discriminate.
  - destruct (env_array_and_config_array sample_lib
                {[ "ALLOWED_HOSTS" := EmptyString ]} "ALLOWED_HOSTS" ["localhost"]
                "app.hosts") as [_ Hset].
    destruct (Hset EmptyString eq_refl) as (_ & _ & _ & Hempty).
    destruct (Hempty eq_refl) as [Hone _]. exact Hone.
Defined.

(** X16: the conversion to bool of [Unmarshal] accepts what [GetBool]
    accepts, with the same result, and more: whenever [GetBool] returns a
    bool for the value that [Get] finds, [toBool] returns the same bool for
    it; an int, which [GetBool] refuses, is converted by [toBool], to true
    when it is not zero; and a string that does not parse is refused by
    both. *)
Theorem toBool_and_GetBool (go : GoLib) (r : ConfigRegistry) (path : string)
    (value : Value) (ds : list bool) :
  Get r path = Ok value →
  (∀ b, GetBool go r path ds = Ok b → toBool go value = Ok b) ∧
  (∀ i, value = VInt i →
        toBool go value = Ok (negb (i =? 0)%Z) ∧
        GetBool go r path ds = Err (cannot_convert path "bool" value)) ∧
  (∀ s err, value = VString s → ParseBool go s = ParseError err →
        toBool go value = Err err ∧
        GetBool go r path ds = Err (cannot_convert_value s path "bool" err)) ∧
  (∀ msg, toBool go value ≠ Panic msg).
Proof.
  intros Hget. unfold GetBool. rewrite Hget.
  split; [|split; [|split]].
  - intros b. destruct value; simpl; try done.
    by destruct (ParseBool go s).
  - by intros i ->.
  - intros s err -> Herr. simpl. by rewrite Herr.
  - intros msg. destruct value; simpl; try done. by destruct (ParseBool go s).
Qed.

Lemma toBool_and_GetBool_witness :
  toBool sample_lib (VInt 3) = Ok true ∧
  GetBool sample_lib app_registry "app.level" []
  = Err "cannot convert value at path 'app.level' to bool: found type int".
Proof.
  destruct (toBool_and_GetBool sample_lib app_registry "app.level" (VInt 3) []
              eq_refl) as (_ & Hint & _).
  apply (Hint 3 eq_refl).
Defined.

(** ** What Set puts in the way *)


